(** * jsonpp: a shallow embedding of the value model, the parser and the
      serializer, and the properties of the specification checked on it.

    Sources embedded here:
    - [include/jsonpp/json_exception.hpp]  (the exception classes)
    - [include/jsonpp/json_value.hpp]      (class [value])
    - [include/jsonpp/json_parser.hpp]     (class [parser])
    - [include/jsonpp/json_serializer.hpp] (class [serializer])
    - [include/jsonpp/json.hpp]            ([parse], [to_string])

    Conventions.
    - [std::string] is [string]; a [char] is an [ascii] (one byte).
    - [int64_t] is a [Z] in the range [int64_min .. int64_max].
    - [double] is [double] below: sign, integer mantissa and binary exponent,
      with the IEEE-754 rounding written out at the two places where the
      program converts to a double.
    - a C++ call returns, throws, has undefined behaviour, or is still
      running when the recursion bound of the model is reached: type
      [outcome]. *)

From Stdlib Require Import ZArith NArith Lia List Bool Ascii String Sorted.
Import ListNotations.

Set Warnings "-register-all".

Local Open Scope string_scope.
Local Open Scope Z_scope.

(** ** Characters that cannot be written inside a string literal *)

Definition dquote : ascii := "034"%char.
Definition backslash : ascii := "092"%char.
Definition char_b : ascii := "008"%char.  (* '\b' *)
Definition char_t : ascii := "009"%char.  (* '\t' *)
Definition char_n : ascii := "010"%char.  (* '\n' *)
Definition char_v : ascii := "011"%char.  (* '\v' *)
Definition char_f : ascii := "012"%char.  (* '\f' *)
Definition char_r : ascii := "013"%char.  (* '\r' *)

(** [static_cast<unsigned char>(ch)] *)
Definition uchar (ch : ascii) : Z := Z.of_N (N_of_ascii ch).

(** the [char] with a given code *)
Definition char_of (n : Z) : ascii := ascii_of_N (Z.to_N n).

(** ** json_exception.hpp, and the two standard exceptions the code raises *)

Inductive exn : Type :=
| json_exception (message : string)
| parse_exception (message : string) (position : nat)
| type_exception (message : string)
| std_out_of_range (what : string)        (* std::out_of_range *)
| std_bad_variant_access.                 (* std::bad_variant_access *)

(** [catch (const json_exception&)] catches exactly the classes of
    json_exception.hpp: the base class and the two classes derived from it. *)
Definition derives_json_exception (e : exn) : bool :=
  match e with
  | json_exception _ | parse_exception _ _ | type_exception _ => true
  | std_out_of_range _ | std_bad_variant_access => false
  end.

Definition is_parse_exception (e : exn) : bool :=
  match e with parse_exception _ _ => true | _ => false end.

Definition is_type_exception (e : exn) : bool :=
  match e with type_exception _ => true | _ => false end.

(** ** Outcomes of a call *)

Inductive outcome (A : Type) : Type :=
| Ok (a : A)              (* normal return *)
| Throw (e : exn)         (* an exception leaves the call *)
| Undefined               (* the C++ standard leaves the behaviour undefined *)
| OutOfFuel.              (* the recursion bound of the model was reached; a call
                             with this outcome at every bound does not return *)

Arguments Ok {A} a.
Arguments Throw {A} e.
Arguments Undefined {A}.
Arguments OutOfFuel {A}.

Definition bind {A B : Type} (m : outcome A) (k : A -> outcome B) : outcome B :=
  match m with
  | Ok a => k a
  | Throw e => Throw e
  | Undefined => Undefined
  | OutOfFuel => OutOfFuel
  end.

Notation "x <- m ;; k" := (bind m (fun x => k))
  (at level 61, m at next level, right associativity).
Notation "' p <- m ;; k" := (bind m (fun x => let p := x in k))
  (at level 61, p pattern, m at next level, right associativity).

(** ** Numbers *)

Definition int64_min : Z := - 2 ^ 63.
Definition int64_max : Z := 2 ^ 63 - 1.

Definition in_int64 (z : Z) : bool := (int64_min <=? z) && (z <=? int64_max).

(** A double is [(-1)^neg * m * 2^e], an infinity, or a NaN.  The mantissa is
    not normalised: comparisons go through the denoted value. *)
Inductive double : Type :=
| finite (neg : bool) (m : N) (e : Z)
| infinity (neg : bool)
| nan.

Definition signed (neg : bool) (a : Z) : Z := if neg then - a else a.

(** IEEE comparison; [None] when one side is a NaN (unordered). *)
Definition double_compare (x y : double) : option comparison :=
  match x, y with
  | nan, _ | _, nan => None
  | infinity s1, infinity s2 =>
      Some (if s1 then (if s2 then Eq else Lt) else (if s2 then Gt else Eq))
  | infinity s, finite _ _ _ => Some (if s then Lt else Gt)
  | finite _ _ _, infinity s => Some (if s then Gt else Lt)
  | finite s1 m1 e1, finite s2 m2 e2 =>
      let e := Z.min e1 e2 in
      Some (Z.compare (signed s1 (Z.of_N m1) * 2 ^ (e1 - e))
                      (signed s2 (Z.of_N m2) * 2 ^ (e2 - e)))
  end.

(** [x == y], [x <= y], [x >= y] on doubles *)
Definition double_eq (x y : double) : bool :=
  match double_compare x y with Some Eq => true | _ => false end.
Definition double_le (x y : double) : bool :=
  match double_compare x y with Some Eq | Some Lt => true | _ => false end.
Definition double_ge (x y : double) : bool :=
  match double_compare x y with Some Eq | Some Gt => true | _ => false end.

(** Round to nearest, ties to even: quotient [q], remainder [r] out of [d]. *)
Definition round_nearest_even (q r d : Z) : Z :=
  match Z.compare (2 * r) d with
  | Lt => q
  | Eq => if Z.even q then q else q + 1
  | Gt => q + 1
  end.

(** [static_cast<number_type>(i)] for an [int64_t]: the nearest double, 53
    bits of mantissa. *)
Definition int64_to_double (i : Z) : double :=
  let a := Z.abs i in
  let k := Z.max 0 (Z.log2 a + 1 - 53) in
  finite (i <? 0) (Z.to_N (round_nearest_even (a / 2 ^ k) (a mod 2 ^ k) (2 ^ k))) k.

(** The value of a finite double with its fraction discarded. *)
Definition double_trunc (x : double) : option Z :=
  match x with
  | finite neg m e =>
      Some (signed neg (if 0 <=? e then Z.of_N m * 2 ^ e else Z.of_N m / 2 ^ (- e)))
  | infinity _ | nan => None
  end.

(** [static_cast<integer_type>(x)] for a double: truncation toward zero; the
    behaviour is undefined when the truncated value is not an [int64_t]
    (C++ [conv.fpint]). *)
Definition double_to_int64 (x : double) : outcome Z :=
  match double_trunc x with
  | Some z => if in_int64 z then Ok z else Undefined
  | None => Undefined
  end.

(** ** json_value.hpp: the value model *)

(** *** [std::map<std::string, value, std::less<>>]

    The map is the list of its pairs in iteration order, which [std::map]
    keeps strictly increasing by key; [std::less<>] on [std::string] is the
    lexicographic order of the bytes, [String.compare]. *)

Module object_map.
Section Ops.
Variable V : Type.
Definition t := list (string * V).

Fixpoint find (key : string) (o : t) : option V :=
  match o with
  | [] => None
  | (k, v) :: o' =>
      match String.compare key k with
      | Eq => Some v
      | Lt => None
      | Gt => find key o'
      end
  end.

Definition contains (key : string) (o : t) : bool :=
  match find key o with Some _ => true | None => false end.

(** [emplace]: the pair is inserted at its sorted place only when no
    element with that key exists; an existing element is left alone. *)
Fixpoint emplace (key : string) (v : V) (o : t) : t :=
  match o with
  | [] => [(key, v)]
  | (k, v') :: o' =>
      match String.compare key k with
      | Eq => (k, v') :: o'
      | Lt => (key, v) :: (k, v') :: o'
      | Gt => (k, v') :: emplace key v o'
      end
  end.

(** [operator[]]: a value-initialised element is inserted when the key is
    absent; the element with that key is returned with the new map. *)
Definition subscript (dflt : V) (key : string) (o : t) : V * t :=
  match find key o with
  | Some v => (v, o)
  | None => (dflt, emplace key dflt o)
  end.

Definition keys (o : t) : list string := map fst o.

(** The class invariant of [std::map]. *)
Definition ordered (o : t) : Prop :=
  StronglySorted (fun a b => String.compare a b = Lt) (keys o).
End Ops.
Arguments find {V}.
Arguments contains {V}.
Arguments emplace {V}.
Arguments subscript {V}.
Arguments keys {V}.
Arguments ordered {V}.
End object_map.

Definition null_type := unit.
Definition boolean_type := bool.
Definition number_type := double.
Definition integer_type := Z.
Definition string_type := string.

(** [enum class value_type], in the order of its enumerators. *)
Inductive value_type : Type :=
| vt_null | vt_boolean | vt_number | vt_integer | vt_string | vt_array | vt_object.

(** The enumerator with a given underlying value. *)
Definition value_type_of_index (n : nat) : value_type :=
  match n with
  | 0%nat => vt_null
  | 1%nat => vt_boolean
  | 2%nat => vt_number
  | 3%nat => vt_integer
  | 4%nat => vt_string
  | 5%nat => vt_array
  | _ => vt_object
  end.

(** [class value]: the alternatives of [variant_type], in its order. *)
Inductive value : Type :=
| null
| boolean (b : boolean_type)
| integer (i : integer_type)
| number (n : number_type)
| str (s : string_type)
| array (arr : list value)
| object (obj : list (string * value)).

Definition array_type := list value.
Definition object_type := object_map.t value.

(** [data_.index()] *)
Definition index (v : value) : nat :=
  match v with
  | null => 0
  | boolean _ => 1
  | integer _ => 2
  | number _ => 3
  | str _ => 4
  | array _ => 5
  | object _ => 6
  end.

(** [type()]: [static_cast<value_type>(data_.index())] *)
Definition type (v : value) : value_type := value_type_of_index (index v).

Definition is_null (v : value) : bool := match v with null => true | _ => false end.
Definition is_boolean (v : value) : bool := match v with boolean _ => true | _ => false end.
Definition is_number (v : value) : bool := match v with number _ => true | _ => false end.
Definition is_integer (v : value) : bool := match v with integer _ => true | _ => false end.
Definition is_string (v : value) : bool := match v with str _ => true | _ => false end.
Definition is_array (v : value) : bool := match v with array _ => true | _ => false end.
Definition is_object (v : value) : bool := match v with object _ => true | _ => false end.

(** [std::get<T>(data_)]: throws [std::bad_variant_access] when [T] is not
    the active alternative. *)
Definition get_boolean (v : value) : outcome boolean_type :=
  match v with boolean b => Ok b | _ => Throw std_bad_variant_access end.
Definition get_integer (v : value) : outcome integer_type :=
  match v with integer i => Ok i | _ => Throw std_bad_variant_access end.
Definition get_number (v : value) : outcome number_type :=
  match v with number n => Ok n | _ => Throw std_bad_variant_access end.
Definition get_string (v : value) : outcome string_type :=
  match v with str s => Ok s | _ => Throw std_bad_variant_access end.
Definition get_array (v : value) : outcome array_type :=
  match v with array a => Ok a | _ => Throw std_bad_variant_access end.
Definition get_object (v : value) : outcome object_type :=
  match v with object o => Ok o | _ => Throw std_bad_variant_access end.

(** *** Narrowing accessors *)

Definition as_boolean (v : value) : outcome boolean_type :=
  if negb (is_boolean v) then Throw (type_exception "Value is not a boolean")
  else get_boolean v.

Definition as_integer (v : value) : outcome integer_type :=
  if is_integer v then get_integer v
  else if is_number v then (n <- get_number v ;; double_to_int64 n)
  else Throw (type_exception "Value is not a number").

Definition as_number (v : value) : outcome number_type :=
  if is_number v then get_number v
  else if is_integer v then (i <- get_integer v ;; Ok (int64_to_double i))
  else Throw (type_exception "Value is not a number").

Definition as_string (v : value) : outcome string_type :=
  if negb (is_string v) then Throw (type_exception "Value is not a string")
  else get_string v.

Definition as_array (v : value) : outcome array_type :=
  if negb (is_array v) then Throw (type_exception "Value is not an array")
  else get_array v.


(** *** Container operations

    A [const] member function is a function of the value.  A member function
    that is not [const] also returns the value as it is after the call. *)

Definition size (v : value) : outcome nat :=
  if is_array v then (a <- get_array v ;; Ok (List.length a))
  else if is_object v then (o <- get_object v ;; Ok (List.length o))
  else Throw (type_exception "Value is not an array or object").

Definition empty (v : value) : outcome bool :=
  if is_array v then (a <- get_array v ;; Ok (match a with [] => true | _ => false end))
  else if is_object v then (o <- get_object v ;; Ok (match o with [] => true | _ => false end))
  else Throw (type_exception "Value is not an array or object").

Definition push_back (v : value) (val : value) : outcome unit * value :=
  if negb (is_array v) then (Throw (type_exception "Value is not an array"), v)
  else match get_array v with
       | Ok a => (Ok tt, array (a ++ [val]))
       | Throw e => (Throw e, v)
       | Undefined => (Undefined, v)
       | OutOfFuel => (OutOfFuel, v)
       end.

(** [operator[](size_t)]: [std::get] on the variant, then the unchecked
    [std::vector::operator[]], undefined when [index >= size()]. *)
Definition at_index (v : value) (i : nat) : outcome value :=
  a <- get_array v ;;
  match nth_error a i with
  | Some x => Ok x
  | None => Undefined
  end.

Definition contains (v : value) (key : string) : bool :=
  if negb (is_object v) then false
  else match get_object v with
       | Ok obj => object_map.contains key obj
       | _ => false
       end.

(** [at(key) const] *)
Definition at_const (v : value) (key : string) : outcome value :=
  if negb (is_object v) then Throw (type_exception "Value is not an object")
  else
    obj <- get_object v ;;
    match object_map.find key obj with
    | None => Throw (std_out_of_range ("Key '" ++ key ++ "' not found"))
    | Some x => Ok x
    end.

(** [at(key)], the overload that is not [const]: same body; the value is
    handed back as it is. *)
Definition at_ (v : value) (key : string) : outcome value * value :=
  (at_const v key, v).

(** [operator[](std::string_view)] *)
Definition at_key (v : value) (key : string) : outcome value * value :=
  if negb (is_object v) then (Throw (type_exception "Value is not an object"), v)
  else match get_object v with
       | Ok obj =>
           let '(x, obj') := object_map.subscript null key obj in
           (Ok x, object obj')
       | Throw e => (Throw e, v)
       | Undefined => (Undefined, v)
       | OutOfFuel => (OutOfFuel, v)
       end.

(** *** [operator==], defaulted: the comparison of the variants, which
    compares the indices and then the payloads with their own [==]. *)
Fixpoint value_eq (a b : value) {struct a} : bool :=
  match a, b with
  | null, null => true
  | boolean x, boolean y => Bool.eqb x y
  | integer x, integer y => x =? y
  | number x, number y => double_eq x y
  | str x, str y => String.eqb x y
  | array x, array y =>
      (fix elems (x y : list value) {struct x} : bool :=
         match x, y with
         | [], [] => true
         | a :: x', b :: y' => value_eq a b && elems x' y'
         | _, _ => false
         end) x y
  | object x, object y =>
      (fix pairs (x y : list (string * value)) {struct x} : bool :=
         match x, y with
         | [], [] => true
         | (k1, a) :: x', (k2, b) :: y' =>
             String.eqb k1 k2 && value_eq a b && pairs x' y'
         | _, _ => false
         end) x y
  | _, _ => false
  end.

(** *** [value(std::initializer_list<value> init) : data_{array_type{init}}]

    [array_type{init}] is a list-initialisation of the vector: its
    constructor from an initializer list of [value]s is preferred, with
    [init] as the one element of that list, so [init] has to be converted to
    a [value]; the constructor that does it is this one, which is not
    [explicit].  The call of the model takes one unit of [fuel]. *)
Fixpoint value_of_initializer_list (fuel : nat) (init : list value) {struct fuel}
  : outcome value :=
  match fuel with
  | O => OutOfFuel
  | S fuel' =>
      element <- value_of_initializer_list fuel' init ;;
      Ok (array [element])
  end.

(** [value{x}], as the parser writes every value it returns: a
    list-initialisation of a [value], for which the constructor from an
    initializer list is preferred to the converting constructor of [x]; the
    converting constructor makes the one element of the list. *)
Definition value_braced (fuel : nat) (x : value) : outcome value :=
  value_of_initializer_list fuel [x].

(** ** Library functions of <cctype>, <charconv> and <ostream> *)

(** [std::isdigit], [std::isspace] in the "C" locale; no byte above 127 is a
    digit or a space. *)
Definition isdigit (ch : ascii) : bool := (48 <=? uchar ch) && (uchar ch <=? 57).

Definition isspace (ch : ascii) : bool :=
  (uchar ch =? 32) || ((9 <=? uchar ch) && (uchar ch <=? 13)).

Definition digit_value (ch : ascii) : Z := uchar ch - 48.
Definition digit_char (d : Z) : ascii := char_of (48 + d).

(** The value of the leading decimal digits of [s], continuing [acc]. *)
Fixpoint digits_value (s : string) (acc : Z) : Z :=
  match s with
  | String ch s' => if isdigit ch then digits_value s' (10 * acc + digit_value ch) else acc
  | EmptyString => acc
  end.

(** [std::from_chars] into an [int64_t], base 10: an optional minus sign and
    decimal digits; [None] stands for an error code ([invalid_argument] when
    no digit is there, [result_out_of_range] when the value does not fit). *)
Definition from_chars_int64 (s : string) : option Z :=
  let '(neg, body) :=
    match s with
    | String "-"%char s' => (true, s')
    | _ => (false, s)
    end in
  match body with
  | String ch _ =>
      if isdigit ch then
        let v := signed neg (digits_value body 0) in
        if in_int64 v then Some v else None
      else None
  | EmptyString => None
  end.

(** The decimal digits of [a >= 0], in front of [acc]. *)
Fixpoint decimal_digits (fuel : nat) (a : Z) (acc : string) : string :=
  match fuel with
  | O => acc
  | S fuel' =>
      let acc' := String (digit_char (a mod 10)) acc in
      if a <? 10 then acc' else decimal_digits fuel' (a / 10) acc'
  end.

Definition decimal_of_nonneg (a : Z) : string :=
  decimal_digits (S (Z.to_nat (Z.log2 a))) a "".

(** [oss << i] for an [int64_t] *)
Definition string_of_int64 (i : Z) : string :=
  if i <? 0 then String "-" (decimal_of_nonneg (- i)) else decimal_of_nonneg i.

(** The double nearest to [n / d] ([n], [d] positive), ties to even, with the
    exponent range of binary64; [None] when the result is not representable
    (overflow, or a non-zero value that rounds to zero). *)
Definition round_to_double (neg : bool) (n d : Z) : option double :=
  let l := Z.log2 n - Z.log2 d in
  let lg := if (if 0 <=? l then n <? d * 2 ^ l else n * 2 ^ (- l) <? d) then l - 1 else l in
  let e := Z.max (lg - 52) (- 1074) in
  let '(n', d') := if 0 <=? e then (n, d * 2 ^ e) else (n * 2 ^ (- e), d) in
  let m := round_nearest_even (n' / d') (n' mod d') d' in
  if m =? 0 then None
  else if (0 <=? e) && (2 ^ 1024 <=? m * 2 ^ e) then None
  else Some (finite neg (Z.to_N m) e).

Fixpoint skip_digits (s : string) : string :=
  match s with
  | String ch s' => if isdigit ch then skip_digits s' else s
  | EmptyString => s
  end.

Fixpoint count_digits (s : string) : Z :=
  match s with
  | String ch s' => if isdigit ch then 1 + count_digits s' else 0
  | EmptyString => 0
  end.

(** [std::from_chars] into a [double], [chars_format::general]: sign, digits,
    an optional fraction, an optional exponent; the value is the correctly
    rounded double, [None] on [result_out_of_range] or [invalid_argument]. *)
Definition from_chars_double (s : string) : option double :=
  let '(neg, s1) :=
    match s with
    | String "-"%char s' => (true, s')
    | _ => (false, s)
    end in
  match s1 with
  | EmptyString => None
  | String ch _ =>
    if negb (isdigit ch) then None else
    let ip := digits_value s1 0 in
    let s2 := skip_digits s1 in
    let '(m, fl, s3) :=
      match s2 with
      | String "."%char f => (digits_value f ip, count_digits f, skip_digits f)
      | _ => (ip, 0, s2)
      end in
    let ex :=
      match s3 with
      | String c x =>
          if (c =? "e")%char || (c =? "E")%char then
            match x with
            | String "-"%char y => - digits_value y 0
            | String "+"%char y => digits_value y 0
            | _ => digits_value x 0
            end
          else 0
      | EmptyString => 0
      end in
    let e10 := ex - fl in
    if m =? 0 then Some (finite neg 0 0)
    else if 0 <=? e10 then round_to_double neg (m * 10 ^ e10) 1
    else round_to_double neg m (10 ^ (- e10))
  end.

(** [floor (log10 q)] for an integer [q >= 1] *)
Fixpoint ilog10 (fuel : nat) (q : Z) : Z :=
  match fuel with
  | O => 0
  | S fuel' => if q <? 10 then 0 else 1 + ilog10 fuel' (q / 10)
  end.

(** the least [j] with [d <= n * 10^j], for [0 < n] *)
Fixpoint scale10 (fuel : nat) (n d : Z) : Z :=
  match fuel with
  | O => 0
  | S fuel' => if d <=? n then 0 else 1 + scale10 fuel' (10 * n) d
  end.

(** [floor (log10 (n / d))] for positive [n], [d] *)
Definition floor_log10 (n d : Z) : Z :=
  if d <=? n then ilog10 (S (Z.to_nat (Z.log2 (n / d)))) (n / d)
  else - scale10 (S (S (Z.to_nat (Z.log2 d)))) n d.

Fixpoint strip_zeros (s : string) : string :=
  match s with
  | EmptyString => EmptyString
  | String ch s' =>
      match strip_zeros s' with
      | EmptyString => if (ch =? "0")%char then EmptyString else String ch EmptyString
      | t => String ch t
      end
  end.

Fixpoint zeros (n : nat) : string :=
  match n with O => EmptyString | S n' => String "0" (zeros n') end.

Definition with_fraction (ip frac : string) : string :=
  match frac with
  | EmptyString => ip
  | _ => ip ++ "." ++ frac
  end.

(** [oss << std::setprecision(17) << x]: the default float field, which is
    the conversion [%.17g] of [printf]: 17 significant digits of the exact
    value, rounded to nearest, trailing zeros removed, scientific notation
    when the decimal exponent is below -4 or at least 17. *)
Definition format_g17 (x : double) : string :=
  match x with
  | nan => "nan"
  | infinity neg => if neg then "-inf" else "inf"
  | finite neg m e =>
      let sign := if neg then "-" else "" in
      if (m =? 0)%N then sign ++ "0" else
      let '(n, d) := if 0 <=? e then (Z.of_N m * 2 ^ e, 1) else (Z.of_N m, 2 ^ (- e)) in
      let x0 := floor_log10 n d in
      let scaled (x : Z) :=
        let '(n', d') := if 0 <=? x - 16 then (n, d * 10 ^ (x - 16))
                         else (n * 10 ^ (16 - x), d) in
        round_nearest_even (n' / d') (n' mod d') d' in
      let '(digits, x) := if scaled x0 <? 10 ^ 17 then (scaled x0, x0)
                          else (10 ^ 16, x0 + 1) in
      let ds := decimal_of_nonneg digits in
      if (x <? -4) || (17 <=? x) then
        let ax := Z.abs x in
        sign ++ with_fraction (substring 0 1 ds) (strip_zeros (substring 1 16 ds))
             ++ "e" ++ (if x <? 0 then "-" else "+")
             ++ (if ax <? 10 then "0" else "") ++ decimal_of_nonneg ax
      else if 0 <=? x then
        let k := Z.to_nat (x + 1) in
        sign ++ with_fraction (substring 0 k ds) (strip_zeros (substring k (17 - k) ds))
      else
        sign ++ "0." ++ zeros (Z.to_nat (- x - 1)) ++ strip_zeros ds
  end.

(** A double written as a decimal literal of the source language. *)
Definition double_of_literal (s : string) : double :=
  match from_chars_double s with
  | Some x => x
  | None => nan
  end.

(** ** json_parser.hpp: class [parser]

    The parser reads [input_] through [position_].  The cursor of the model
    is the unread text [input_.substr(position_)]; [position_] is the length
    of [input_] minus the length of the unread text, and is only observed in
    the exceptions. *)

Definition char_string (ch : ascii) : string := String ch EmptyString.

Fixpoint drop (n : nat) (s : string) : string :=
  match n, s with
  | S n', String _ s' => drop n' s'
  | _, _ => s
  end.

Arguments drop n s : simpl nomatch.

Section parser.
Variable input_ : string.

Definition position_ (unread : string) : nat :=
  (String.length input_ - String.length unread)%nat.

Fixpoint skip_whitespace (s : string) : string :=
  match s with
  | String ch s' => if isspace ch then skip_whitespace s' else s
  | EmptyString => s
  end.

Definition peek (s : string) : option ascii :=
  match s with
  | String ch _ => Some ch
  | EmptyString => None
  end.

(** [peek() == c] *)
Definition peek_is (s : string) (c : ascii) : bool :=
  match peek s with
  | Some ch => (ch =? c)%char
  | None => false
  end.

Definition consume (s : string) : outcome (ascii * string) :=
  match s with
  | EmptyString => Throw (parse_exception "Unexpected end of input" (position_ s))
  | String ch s' => Ok (ch, s')
  end.

Definition expect (expected : ascii) (s : string) : outcome string :=
  '(ch, s') <- consume s ;;
  if negb (ch =? expected)%char then
    Throw (parse_exception
             ("Expected '" ++ char_string expected ++ "', got '" ++ char_string ch ++ "'")
             (position_ s' - 1))
  else Ok s'.

(** [return value{null_type{}}] *)
Definition parse_null (fuel : nat) (s : string) : outcome (value * string) :=
  if negb (prefix "null" s) then
    Throw (parse_exception "Invalid null literal" (position_ s))
  else
    v <- value_braced fuel null ;;
    Ok (v, drop 4 s).

(** [return value{true}], [return value{false}] *)
Definition parse_boolean (fuel : nat) (s : string) : outcome (value * string) :=
  if prefix "true" s then
    v <- value_braced fuel (boolean true) ;;
    Ok (v, drop 4 s)
  else if prefix "false" s then
    v <- value_braced fuel (boolean false) ;;
    Ok (v, drop 5 s)
  else Throw (parse_exception "Invalid boolean literal" (position_ s)).

(** [!peek() || !std::isdigit( *peek())] *)
Definition no_digit (s : string) : bool :=
  match peek s with
  | Some ch => negb (isdigit ch)
  | None => true
  end.

Definition parse_number (fuel : nat) (start : string) : outcome (value * string) :=
  let s := if peek_is start "-" then drop 1 start else start in
  if no_digit s then Throw (parse_exception "Invalid number" (position_ start)) else
  let s := if peek_is s "0" then drop 1 s else skip_digits s in
  '(has_decimal, s) <-
    (if peek_is s "." then
       let s := drop 1 s in
       if no_digit s then
         Throw (parse_exception "Invalid number: expected digit after '.'" (position_ s))
       else Ok (true, skip_digits s)
     else Ok (false, s)) ;;
  '(has_exponent, s) <-
    (if peek_is s "e" || peek_is s "E" then
       let s := drop 1 s in
       let s := if peek_is s "+" || peek_is s "-" then drop 1 s else s in
       if no_digit s then
         Throw (parse_exception "Invalid number: expected digit in exponent" (position_ s))
       else Ok (true, skip_digits s)
     else Ok (false, s)) ;;
  let number_str := substring 0 (String.length start - String.length s) start in
  if has_decimal || has_exponent then
    match from_chars_double number_str with
    | None => Throw (parse_exception "Failed to parse number" (position_ start))
    | Some result =>
        v <- value_braced fuel (number result) ;;
        Ok (v, s)
    end
  else
    match from_chars_int64 number_str with
    | None => Throw (parse_exception "Failed to parse integer" (position_ start))
    | Some result =>
        v <- value_braced fuel (integer result) ;;
        Ok (v, s)
    end.

(** One hexadecimal digit of a [\u] escape. *)
Definition hex_value (hex : ascii) : option Z :=
  let c := uchar hex in
  if (48 <=? c) && (c <=? 57) then Some (c - 48)
  else if (97 <=? c) && (c <=? 102) then Some (c - 97 + 10)
  else if (65 <=? c) && (c <=? 70) then Some (c - 65 + 10)
  else None.

(** The [for] loop of the [\u] escape over the four characters that follow:
    the code unit, or the index of the first character that is no
    hexadecimal digit. *)
Fixpoint hex_loop (hs : list ascii) (i : nat) (codepoint : Z) : Z + nat :=
  match hs with
  | [] => inl codepoint
  | hex :: hs' =>
      match hex_value hex with
      | Some d => hex_loop hs' (S i) (Z.lor (Z.shiftl codepoint 4) d)
      | None => inr i
      end
  end.

(** The bytes appended for a code unit. *)
Definition utf8_encode (codepoint : Z) : string :=
  if codepoint <=? 127 then
    char_string (char_of codepoint)
  else if codepoint <=? 2047 then
    String (char_of (Z.lor 192 (Z.shiftr codepoint 6)))
      (String (char_of (Z.lor 128 (Z.land codepoint 63))) EmptyString)
  else
    String (char_of (Z.lor 224 (Z.shiftr codepoint 12)))
      (String (char_of (Z.lor 128 (Z.land (Z.shiftr codepoint 6) 63)))
         (String (char_of (Z.lor 128 (Z.land codepoint 63))) EmptyString)).

(** The [while (true)] loop of [parse_string], after the opening quote; the
    closing quote leaves the loop for [return value{std::move(result)}]. *)
Fixpoint parse_string_loop (fuel : nat) (s : string) (result : string) {struct s}
  : outcome (value * string) :=
  match s with
  | EmptyString => Throw (parse_exception "Unterminated string" (position_ s))
  | String ch s1 =>
      if (ch =? dquote)%char then
        v <- value_braced fuel (str result) ;;
        Ok (v, s1)
      else if (ch =? backslash)%char then
        match s1 with
        | EmptyString =>
            Throw (parse_exception "Unterminated escape sequence" (position_ s1))
        | String escaped s2 =>
            if (escaped =? dquote)%char then parse_string_loop fuel s2 (result ++ char_string dquote)
            else if (escaped =? backslash)%char then parse_string_loop fuel s2 (result ++ char_string backslash)
            else if (escaped =? "/")%char then parse_string_loop fuel s2 (result ++ "/")
            else if (escaped =? "b")%char then parse_string_loop fuel s2 (result ++ char_string char_b)
            else if (escaped =? "f")%char then parse_string_loop fuel s2 (result ++ char_string char_f)
            else if (escaped =? "n")%char then parse_string_loop fuel s2 (result ++ char_string char_n)
            else if (escaped =? "r")%char then parse_string_loop fuel s2 (result ++ char_string char_r)
            else if (escaped =? "t")%char then parse_string_loop fuel s2 (result ++ char_string char_t)
            else if (escaped =? "u")%char then
              match s2 with
              | String h1 (String h2 (String h3 (String h4 s3))) =>
                  match hex_loop [h1; h2; h3; h4] 0 0 with
                  | inr i =>
                      Throw (parse_exception "Invalid hex digit in unicode escape"
                               (position_ s2 + i))
                  | inl codepoint => parse_string_loop fuel s3 (result ++ utf8_encode codepoint)
                  end
              | _ => Throw (parse_exception "Invalid unicode escape" (position_ s2))
              end
            else
              Throw (parse_exception
                       ("Invalid escape sequence '\" ++ char_string escaped ++ "'")
                       (position_ s2 - 1))
        end
      else if uchar ch <? 32 then
        Throw (parse_exception "Unescaped control character in string" (position_ s1 - 1))
      else parse_string_loop fuel s1 (result ++ char_string ch)
  end.

Definition parse_string (fuel : nat) (s : string) : outcome (value * string) :=
  s <- expect dquote s ;;
  parse_string_loop fuel s EmptyString.

(** [parse_array], with the [while (true)] loop as [loop]. *)
Definition parse_array_with (fuel : nat)
  (loop : string -> array_type -> outcome (value * string))
  (s : string) : outcome (value * string) :=
  s <- expect "[" s ;;
  let s := skip_whitespace s in
  if peek_is s "]" then
    v <- value_braced fuel (array []) ;;
    Ok (v, drop 1 s)
  else loop s [].

(** [parse_object], with the [while (true)] loop as [loop]. *)
Definition parse_object_with (fuel : nat)
  (loop : string -> object_type -> outcome (value * string))
  (s : string) : outcome (value * string) :=
  s <- expect "{" s ;;
  let s := skip_whitespace s in
  if peek_is s "}" then
    v <- value_braced fuel (object []) ;;
    Ok (v, drop 1 s)
  else loop s [].

(** [parse_value] and the two loops.  Every call of [parse_value], every
    turn of a loop and every call of a constructor takes one unit of
    [fuel]. *)
Fixpoint parse_value (fuel : nat) (s : string) {struct fuel} : outcome (value * string) :=
  match fuel with
  | O => OutOfFuel
  | S fuel' =>
      let s := skip_whitespace s in
      match peek s with
      | None => Throw (parse_exception "Unexpected end of input" (position_ s))
      | Some ch =>
          if (ch =? "n")%char then parse_null fuel' s
          else if (ch =? "t")%char || (ch =? "f")%char then parse_boolean fuel' s
          else if (ch =? dquote)%char then parse_string fuel' s
          else if (ch =? "[")%char then parse_array_with fuel' (parse_array_loop fuel') s
          else if (ch =? "{")%char then parse_object_with fuel' (parse_object_loop fuel') s
          else if (ch =? "-")%char || isdigit ch then parse_number fuel' s
          else Throw (parse_exception ("Unexpected character '" ++ char_string ch ++ "'")
                        (position_ s))
      end
  end

with parse_array_loop (fuel : nat) (s : string) (result : array_type) {struct fuel}
  : outcome (value * string) :=
  match fuel with
  | O => OutOfFuel
  | S fuel' =>
      '(val, s) <- parse_value fuel' s ;;
      let result := (result ++ [val])%list in
      let s := skip_whitespace s in
      match peek s with
      | None => Throw (parse_exception "Unterminated array" (position_ s))
      | Some ch =>
          if (ch =? "]")%char then
            v <- value_braced fuel' (array result) ;;
            Ok (v, drop 1 s)
          else if (ch =? ",")%char then
            let s := skip_whitespace (drop 1 s) in
            if peek_is s "]" then
              Throw (parse_exception "Trailing comma in array" (position_ s))
            else parse_array_loop fuel' s result
          else
            Throw (parse_exception
                     ("Expected ',' or ']', got '" ++ char_string ch ++ "'") (position_ s))
      end
  end

with parse_object_loop (fuel : nat) (s : string) (result : object_type) {struct fuel}
  : outcome (value * string) :=
  match fuel with
  | O => OutOfFuel
  | S fuel' =>
      let s := skip_whitespace s in
      if negb (peek_is s dquote) then
        Throw (parse_exception "Expected string key in object" (position_ s))
      else
        '(keyv, s) <- parse_string fuel' s ;;
        key <- as_string keyv ;;
        let s := skip_whitespace s in
        s <- expect ":" s ;;
        let s := skip_whitespace s in
        '(val, s) <- parse_value fuel' s ;;
        let result := object_map.emplace key val result in
        let s := skip_whitespace s in
        match peek s with
        | None => Throw (parse_exception "Unterminated object" (position_ s))
        | Some ch =>
            if (ch =? "}")%char then
              v <- value_braced fuel' (object result) ;;
              Ok (v, drop 1 s)
            else if (ch =? ",")%char then
              let s := skip_whitespace (drop 1 s) in
              if peek_is s "}" then
                Throw (parse_exception "Trailing comma in object" (position_ s))
              else parse_object_loop fuel' s result
            else
              Throw (parse_exception
                       ("Expected ',' or '}', got '" ++ char_string ch ++ "'") (position_ s))
        end
  end.

Definition parse_array (fuel : nat) : string -> outcome (value * string) :=
  parse_array_with fuel (parse_array_loop fuel).
Definition parse_object (fuel : nat) : string -> outcome (value * string) :=
  parse_object_with fuel (parse_object_loop fuel).

(** [parser::parse] *)
Definition parser_parse (fuel : nat) : outcome value :=
  let s := skip_whitespace input_ in
  '(result, s) <- parse_value fuel s ;;
  let s := skip_whitespace s in
  if (position_ s <? String.length input_)%nat then
    Throw (parse_exception "Unexpected characters after JSON value" (position_ s))
  else Ok result.

End parser.

(** ** json.hpp: [parse]

    The fuel is enough for every call that ends: a call that has not ended
    with it ends with no fuel ([parse_fuel_enough] below). *)

Definition parse (json_text : string) : outcome value :=
  parser_parse json_text (S (2 * String.length json_text)).

(** A JSON text written with ['] where the text has a double quote. *)
Fixpoint json (s : string) : string :=
  match s with
  | EmptyString => EmptyString
  | String ch s' => String (if (ch =? "'")%char then dquote else ch) (json s')
  end.

(** ** json_serializer.hpp: class [serializer]

    The text written to [oss] is returned.  [current_indent_] is incremented
    before the elements of a container and decremented after them, so it is
    an argument here: the elements are written at [S current_indent_]. *)

Definition hex_digit_char (d : Z) : ascii :=
  if d <? 10 then char_of (48 + d) else char_of (87 + d).

Fixpoint hex_digits (fuel : nat) (a : Z) (acc : string) : string :=
  match fuel with
  | O => acc
  | S fuel' =>
      let acc' := String (hex_digit_char (a mod 16)) acc in
      if a <? 16 then acc' else hex_digits fuel' (a / 16) acc'
  end.

(** [oss << std::hex << std::setfill('0') << std::setw(4) << n] *)
Definition hex_setw4 (n : Z) : string :=
  let h := hex_digits (S (Z.to_nat (Z.log2 n))) n "" in
  zeros (4 - String.length h) ++ h.

Fixpoint spaces (n : nat) : string :=
  match n with O => EmptyString | S n' => String " " (spaces n') end.

Section serializer.
Variable pretty_ : bool.
Variable indent_size_ : nat.

Definition write_indent (current_indent_ : nat) : string :=
  if pretty_ then spaces (current_indent_ * indent_size_) else "".

Definition write_newline : string :=
  if pretty_ then char_string char_n else "".

Definition write_space : string :=
  if pretty_ then " " else "".

Definition serialize_number (num : double) : outcome string :=
  i <- double_to_int64 num ;;
  if double_eq num (int64_to_double i)
     && double_ge num (int64_to_double int64_min)
     && double_le num (int64_to_double int64_max)
  then (i <- double_to_int64 num ;; Ok (string_of_int64 i))
  else Ok (format_g17 num).

(** The text one character of a string is written as. *)
Definition serialize_char (ch : ascii) : string :=
  if (ch =? dquote)%char then String backslash (char_string dquote)
  else if (ch =? backslash)%char then String backslash (char_string backslash)
  else if (ch =? char_b)%char then "\b"
  else if (ch =? char_f)%char then "\f"
  else if (ch =? char_n)%char then "\n"
  else if (ch =? char_r)%char then "\r"
  else if (ch =? char_t)%char then "\t"
  else if uchar ch <? 32 then "\u" ++ hex_setw4 (uchar ch)
  else char_string ch.

Fixpoint serialize_chars (s : string) : string :=
  match s with
  | EmptyString => EmptyString
  | String ch s' => serialize_char ch ++ serialize_chars s'
  end.

Definition serialize_string (s : string) : string :=
  char_string dquote ++ serialize_chars s ++ char_string dquote.

(** [serialize_array] and [serialize_object], with the function they call
    for an element. *)
Section containers.
Variable serialize_value : nat -> value -> outcome string.

(** The [for] loop of [serialize_array]; [current_indent_] is the value
    after [++current_indent_]. *)
Fixpoint serialize_elements (current_indent_ : nat) (arr : list value) (first : bool)
  {struct arr} : outcome string :=
  match arr with
  | [] => Ok ""
  | element :: arr' =>
      t <- serialize_value current_indent_ element ;;
      rest <- serialize_elements current_indent_ arr' false ;;
      Ok ((if first then "" else "," ++ write_newline)
            ++ write_indent current_indent_ ++ t ++ rest)
  end.

Definition serialize_array (current_indent_ : nat) (arr : array_type) : outcome string :=
  match arr with
  | [] => Ok "[]"
  | _ =>
      body <- serialize_elements (S current_indent_) arr true ;;
      Ok ("[" ++ write_newline ++ body
              ++ write_newline ++ write_indent current_indent_ ++ "]")
  end.

(** The [for] loop of [serialize_object]. *)
Fixpoint serialize_members (current_indent_ : nat) (obj : list (string * value))
  (first : bool) {struct obj} : outcome string :=
  match obj with
  | [] => Ok ""
  | (key, val) :: obj' =>
      t <- serialize_value current_indent_ val ;;
      rest <- serialize_members current_indent_ obj' false ;;
      Ok ((if first then "" else "," ++ write_newline)
            ++ write_indent current_indent_
            ++ serialize_string key ++ ":" ++ write_space ++ t ++ rest)
  end.

Definition serialize_object (current_indent_ : nat) (obj : object_type) : outcome string :=
  match obj with
  | [] => Ok "{}"
  | _ =>
      body <- serialize_members (S current_indent_) obj true ;;
      Ok ("{" ++ write_newline ++ body
              ++ write_newline ++ write_indent current_indent_ ++ "}")
  end.
End containers.

(** [serialize_value]: the [switch] is on [val.type()]; the two container
    cases read the payload as [as_array] and [as_object] do. *)
Fixpoint serialize_value (current_indent_ : nat) (val : value) {struct val}
  : outcome string :=
  match type val with
  | vt_null => Ok "null"
  | vt_boolean => b <- as_boolean val ;; Ok (if b : bool then "true" else "false")
  | vt_integer => i <- as_integer val ;; Ok (string_of_int64 i)
  | vt_number => n <- as_number val ;; serialize_number n
  | vt_string => s <- as_string val ;; Ok (serialize_string s)
  | vt_array =>
      match val with
      | array arr => serialize_array serialize_value current_indent_ arr
      | _ => Throw (type_exception "Value is not an array")
      end
  | vt_object =>
      match val with
      | object obj => serialize_object serialize_value current_indent_ obj
      | _ => Throw (type_exception "Value is not an object")
      end
  end.

(** [serializer::serialize] *)
Definition serialize (val : value) : outcome string := serialize_value 0 val.

End serializer.

(** ** json.hpp: [to_string] *)

Definition to_string (val : value) (pretty : bool) : outcome string :=
  serialize pretty 2 val.

(** * Notions the properties are stated with *)

Definition defined {A : Type} (m : outcome A) : bool :=
  match m with Ok _ => true | _ => false end.

(** No conversion of a number in the value is undefined. *)
Fixpoint renderable (v : value) : bool :=
  match v with
  | integer i => defined (double_to_int64 (int64_to_double i))
  | number n => defined (double_to_int64 n)
  | array arr => forallb renderable arr
  | object obj => forallb (fun kv => renderable (snd kv)) obj
  | _ => true
  end.

Fixpoint all_space (s : string) : bool :=
  match s with
  | EmptyString => true
  | String ch s' => isspace ch && all_space s'
  end.

(** The text of a member of an object, from the key and the text of its
    value. *)
Definition member_of_text (kt : string * string) : string :=
  serialize_string (fst kt) ++ ":" ++ snd kt.

(** The texts that can stand in front of the first value token of a JSON
    text: white space, opening brackets, and opening braces with the key and
    the colon of their first member. *)
Inductive opening : string -> Prop :=
| opening_here : opening ""
| opening_space ch p : isspace ch = true -> opening p -> opening (String ch p)
| opening_array p : opening p -> opening (String "[" p)
| opening_object ws1 key ws2 p :
    all_space ws1 = true ->
    all_space ws2 = true ->
    opening p ->
    opening (String "{" (ws1 ++ serialize_string key ++ ws2 ++ String ":" p)).

(** The outcomes of a function on the elements of a list, in order. *)
Fixpoint all_ok {A B : Type} (f : A -> outcome B) (l : list A) : outcome (list B) :=
  match l with
  | [] => Ok []
  | a :: l' => b <- f a ;; bs <- all_ok f l' ;; Ok (b :: bs)
  end.

(** The compact text of one member of an object. *)
Definition member_text (kv : string * value) : outcome string :=
  t <- to_string (snd kv) false ;;
  Ok (serialize_string (fst kv) ++ ":" ++ t).

Fixpoint all_digits (s : string) : bool :=
  match s with
  | EmptyString => true
  | String ch s' => isdigit ch && all_digits s'
  end.

(** What the serializer writes behind a value: nothing, a comma, a closing
    bracket or brace, or a new line. *)
Definition delimited (rest : string) : bool :=
  match rest with
  | EmptyString => true
  | String ch _ =>
      (ch =? ",")%char || (ch =? "]")%char || (ch =? "}")%char || (ch =? char_n)%char
  end.

(** The text starts with a character that is no white space and closes no
    container. *)
Definition starts_value (t : string) : bool :=
  match t with
  | EmptyString => false
  | String ch _ => negb (isspace ch) && negb (ch =? "]")%char && negb (ch =? "}")%char
  end.

(** [parse_value] does not come back from the text [t], whatever the
    serializer writes behind it and whatever the fuel. *)
Definition unparsed (t : string) : Prop :=
  forall input fuel rest,
    delimited rest = true -> parse_value input fuel (t ++ rest) = OutOfFuel.

(** What the text written for [v] does: it is written unless a conversion
    in [v] is undefined, it starts as a value does, and [parse_value] does
    not come back from it. *)
Definition written_unparsed (v : value) : Prop :=
  forall pretty indent_size current_indent,
    if renderable v then
      exists t, serialize_value pretty indent_size current_indent v = Ok t /\
                starts_value t = true /\ unparsed t
    else serialize_value pretty indent_size current_indent v = Undefined.

(** A number token that starts with [0] and goes on with the digit [d]. *)
Definition zero_digit_text (sign rest : string) (d : ascii) : string :=
  sign ++ "0" ++ String d rest.

(** [m1] is [m2] unless the fuel ran out in [m1]. *)
Definition refines {A : Type} (m1 m2 : outcome A) : Prop :=
  m1 = OutOfFuel \/ m1 = m2.

(** The call has not returned: a [parse_exception] left it, or it is still
    running when the fuel is used up. *)
Definition no_value {A : Type} (m : outcome A) : Prop :=
  match m with
  | Throw (parse_exception _ _) | OutOfFuel => True
  | _ => False
  end.

(** A value with no double in it, and every integer of magnitude at most
    2^53. *)
Fixpoint plain (v : value) : bool :=
  match v with
  | integer i => Z.abs i <=? 2 ^ 53
  | number _ => false
  | array arr => forallb plain arr
  | object obj => forallb (fun kv => plain (snd kv)) obj
  | _ => true
  end.

(** No NaN in the value. *)
Fixpoint nan_free (v : value) : bool :=
  match v with
  | number nan => false
  | array arr => forallb nan_free arr
  | object obj => forallb (fun kv => nan_free (snd kv)) obj
  | _ => true
  end.

(** The characters a value can start with: the cases of the [switch] in
    [parse_value] that do not throw at once. *)
Definition starts_token (ch : ascii) : bool :=
  (ch =? "n")%char || (ch =? "t")%char || (ch =? "f")%char || (ch =? dquote)%char
  || (ch =? "[")%char || (ch =? "{")%char || (ch =? "-")%char || isdigit ch.


(** The escape letters that stand for one character. *)
Definition simple_escape (ch : ascii) : bool :=
  (ch =? dquote)%char || (ch =? backslash)%char || (ch =? "/")%char || (ch =? "b")%char
  || (ch =? "f")%char || (ch =? "n")%char || (ch =? "r")%char || (ch =? "t")%char.

Definition is_hex_digit (ch : ascii) : bool :=
  match hex_value ch with Some _ => true | None => false end.

(** The inside of a string literal up to some point: characters from 0x20
    on that are no quote and no backslash, a backslash with one of the eight
    simple escape letters, or [\u] with four hexadecimal digits. *)
Inductive string_body : string -> Prop :=
| body_end : string_body ""
| body_char ch p :
    (ch =? dquote)%char = false -> (ch =? backslash)%char = false ->
    (uchar ch <? 32) = false ->
    string_body p -> string_body (String ch p)
| body_escape ch p :
    simple_escape ch = true -> string_body p ->
    string_body (String backslash (String ch p))
| body_unicode h1 h2 h3 h4 p :
    is_hex_digit h1 = true -> is_hex_digit h2 = true ->
    is_hex_digit h3 = true -> is_hex_digit h4 = true ->
    string_body p ->
    string_body (String backslash (String "u" (String h1 (String h2 (String h3 (String h4 p)))))).

(** Every character of the text satisfies [p]. *)
Fixpoint all_chars (p : ascii -> bool) (s : string) : bool :=
  match s with
  | EmptyString => true
  | String ch s' => p ch && all_chars p s'
  end.

(** A character of a written text: no control character, but for the new
    line in pretty mode. *)
Definition text_char (pretty : bool) (ch : ascii) : bool :=
  (32 <=? uchar ch) || (pretty && (ch =? char_n)%char).

(** The messages of the exceptions [parse_value] throws before it has
    read a value: the ones of the first token. *)
Definition first_token_message (message : string) : Prop :=
  message = "Unexpected end of input" \/
  (exists ch, message = "Unexpected character '" ++ char_string ch ++ "'") \/
  message = "Invalid null literal" \/
  message = "Invalid boolean literal" \/
  message = "Invalid number" \/
  message = "Invalid number: expected digit after '.'" \/
  message = "Invalid number: expected digit in exponent" \/
  message = "Failed to parse number" \/
  message = "Failed to parse integer" \/
  message = "Unterminated string" \/
  message = "Unterminated escape sequence" \/
  message = "Invalid unicode escape" \/
  message = "Invalid hex digit in unicode escape" \/
  (exists ch, message = "Invalid escape sequence '\" ++ char_string ch ++ "'") \/
  message = "Unescaped control character in string" \/
  message = "Expected string key in object".

(** The call has not returned a value: it threw a [parse_exception] with
    one of the messages of a first token and an offset in the input, or it
    is still running when the fuel is used up. *)
Definition stops_early {A : Type} (input : string) (m : outcome A) : Prop :=
  match m with
  | Throw (parse_exception message position) =>
      first_token_message message /\ (position <= String.length input)%nat
  | OutOfFuel => True
  | _ => False
  end.

(** * Properties *)

(** ** The accessors of the value model *)

(** C10: on a value that is no array, [operator[](size_t)] throws
    [std::bad_variant_access], which is no [type_exception] and no
    [json_exception]; [as_array] and [push_back] throw a [type_exception]
    there, and so do [size] and [empty] unless the value is an object. *)
Theorem at_index_unchecked (v : value) (i : nat) :
  is_array v = false ->
  at_index v i = Throw std_bad_variant_access /\
  is_type_exception std_bad_variant_access = false /\
  derives_json_exception std_bad_variant_access = false /\
  as_array v = Throw (type_exception "Value is not an array") /\
  (forall x, push_back v x = (Throw (type_exception "Value is not an array"), v)) /\
  (is_object v = false ->
   size v = Throw (type_exception "Value is not an array or object") /\
   empty v = Throw (type_exception "Value is not an array or object")).
Proof.
  destruct v; simpl; intros H; try discriminate H; repeat split; intros; try discriminate;
    reflexivity.
Qed.

Lemma at_index_unchecked_witness :
  is_array (str "a") = false /\
  at_index (str "a") 0 = Throw std_bad_variant_access.
Proof.
  split; [reflexivity | apply (at_index_unchecked (str "a") 0); reflexivity].
Defined.

(** C5: for an absent key [at] fails with the error of a key that is not
    found: it throws [std::out_of_range] with the key in its message, which
    is neither a [parse_exception] nor a [type_exception] (nor any
    [json_exception]); the value is unchanged. *)
Theorem at_absent_key (obj : object_type) (key : string) :
  object_map.find key obj = None ->
  let e := std_out_of_range ("Key '" ++ key ++ "' not found") in
  at_const (object obj) key = Throw e /\
  at_ (object obj) key = (Throw e, object obj) /\
  derives_json_exception e = false /\
  is_parse_exception e = false /\
  is_type_exception e = false.
Proof.
  intros H. unfold at_, at_const. simpl. rewrite H. repeat split; reflexivity.
Qed.

Lemma at_absent_key_witness :
  object_map.find "b" [("a", integer 1)] = None /\
  at_const (object [("a", integer 1)]) "b" = Throw (std_out_of_range "Key 'b' not found").
Proof.
  split; [reflexivity | apply (at_absent_key [("a", integer 1)] "b"); reflexivity].
Defined.

(** ** The serializer dispatches on [type()] *)

(** [type()] casts the index of the variant to [value_type], whose
    enumerators [number] and [integer] are in the other order: an integer
    has the type [number], a double the type [integer]. *)
Lemma type_of_integer_and_number :
  (forall i, type (integer i) = vt_number) /\ (forall n, type (number n) = vt_integer).
Proof. split; reflexivity. Qed.

(** C7 fails on the code: a double is written by the [value_type::integer]
    case, that is as the integer [as_integer] truncates it to, whatever its
    fraction, and it is the integers that reach [serialize_number]; called
    on 1.5, [serialize_number] writes the 17 digits the claim asks for. *)
Theorem number_rendered_truncated :
  (forall n pretty, to_string (number n) pretty =
                      (i <- double_to_int64 n ;; Ok (string_of_int64 i))) /\
  (forall i pretty, to_string (integer i) pretty = serialize_number (int64_to_double i)) /\
  to_string (number (double_of_literal "1.5")) false = Ok "1" /\
  serialize_number (double_of_literal "1.5") = Ok "1.5".
Proof.
  split; [reflexivity |]. split; [reflexivity |]. split; vm_compute; reflexivity.
Qed.

(** ** Strings and the cursor *)

Lemma append_assoc (a b c : string) : (a ++ b) ++ c = a ++ (b ++ c).
Proof. induction a as [| ch a IH]; simpl; [reflexivity | rewrite IH; reflexivity]. Qed.

Lemma append_empty_r (a : string) : a ++ "" = a.
Proof. induction a as [| ch a IH]; simpl; [reflexivity | rewrite IH; reflexivity]. Qed.

Lemma length_append (a b : string) :
  String.length (a ++ b) = (String.length a + String.length b)%nat.
Proof. induction a as [| ch a IH]; simpl; [reflexivity | rewrite IH; reflexivity]. Qed.

Lemma skip_whitespace_length (s : string) :
  (String.length (skip_whitespace s) <= String.length s)%nat.
Proof.
  induction s as [| ch s IH]; simpl; [lia |].
  destruct (isspace ch); simpl; lia.
Qed.

Lemma skip_whitespace_idem (s : string) :
  skip_whitespace (skip_whitespace s) = skip_whitespace s.
Proof.
  induction s as [| ch s IH]; simpl; [reflexivity |].
  destruct (isspace ch) eqn:E; [exact IH | simpl; rewrite E; reflexivity].
Qed.

Lemma skip_whitespace_spaces (ws s : string) :
  all_space ws = true -> skip_whitespace (ws ++ s) = skip_whitespace s.
Proof.
  induction ws as [| ch ws IH]; simpl; [reflexivity |].
  intros H. apply andb_prop in H. destruct H as [H1 H2]. rewrite H1. auto.
Qed.


(** ** A value that the parser returns

    Every [return] of the parser builds its value with braces, that is by
    the constructor from an initializer list, which calls itself. *)

Lemma value_braced_diverges (fuel : nat) (x : value) : value_braced fuel x = OutOfFuel.
Proof.
  unfold value_braced. induction fuel as [| fuel IH]; cbn [value_of_initializer_list];
    [reflexivity | rewrite IH; reflexivity].
Qed.

Lemma no_value_bind {A B : Type} (m : outcome A) (k : A -> outcome B) :
  no_value m -> no_value (bind m k).
Proof. destruct m as [a | [] | |]; cbn; auto; intros []. Qed.

Lemma no_value_cases {A : Type} (m : outcome A) :
  no_value m -> m = OutOfFuel \/ exists message position, m = Throw (parse_exception message position).
Proof. destruct m as [a | [] | |]; cbn; intros H; try contradiction; eauto. Qed.

(** The paths through [parse_number], each with its constructor call. *)
Ltac number_paths :=
  unfold parse_number; cbv zeta;
  repeat first
    [ progress cbn [bind orb]
    | match goal with |- context [if ?c then _ else _] => destruct c end
    | match goal with
      | |- context [match ?o with Some _ => _ | None => _ end] => destruct o
      end ];
  rewrite ?value_braced_diverges.

Section parser_leaves.
Variable input : string.

Lemma parse_null_value (f : nat) (s : string) :
  parse_null input f s =
    if negb (prefix "null" s) then
      Throw (parse_exception "Invalid null literal" (position_ input s))
    else OutOfFuel.
Proof. unfold parse_null. rewrite value_braced_diverges. reflexivity. Qed.

Lemma parse_boolean_value (f : nat) (s : string) :
  parse_boolean input f s =
    if prefix "true" s then OutOfFuel
    else if prefix "false" s then OutOfFuel
    else Throw (parse_exception "Invalid boolean literal" (position_ input s)).
Proof. unfold parse_boolean. rewrite !value_braced_diverges. reflexivity. Qed.

Lemma parse_number_fuel (f f' : nat) (s : string) :
  parse_number input f s = parse_number input f' s.
Proof. number_paths; reflexivity. Qed.

Lemma parse_number_no_value (f : nat) (s : string) : no_value (parse_number input f s).
Proof. number_paths; exact I. Qed.

Lemma parse_string_loop_fuel (f f' : nat) (n : nat) :
  forall s result,
    (String.length s <= n)%nat ->
    parse_string_loop input f s result = parse_string_loop input f' s result.
Proof.
  induction n as [| n IH]; intros s result L;
    destruct s as [| ch s1]; cbn [String.length] in L; try lia; try reflexivity.
  cbn [parse_string_loop]. rewrite !value_braced_diverges.
  destruct (ch =? dquote)%char; [reflexivity |].
  destruct (ch =? backslash)%char.
  - destruct s1 as [| escaped s2]; [reflexivity |]. cbn [String.length] in L.
    repeat match goal with
           | |- (if (escaped =? ?c)%char then _ else _) = _ =>
               destruct (escaped =? c)%char; [apply IH; lia |]
           end.
    destruct (escaped =? "u")%char; [| reflexivity].
    destruct s2 as [| h1 [| h2 [| h3 [| h4 s3]]]]; try reflexivity.
    destruct (hex_loop _ _ _); [| reflexivity].
    apply IH. cbn [String.length] in L. lia.
  - destruct (uchar ch <? 32); [reflexivity |]. apply IH. lia.
Qed.

Lemma parse_string_loop_no_value (f : nat) (n : nat) :
  forall s result,
    (String.length s <= n)%nat -> no_value (parse_string_loop input f s result).
Proof.
  induction n as [| n IH]; intros s result L;
    destruct s as [| ch s1]; cbn [String.length] in L; try lia; try exact I.
  cbn [parse_string_loop]. rewrite !value_braced_diverges.
  destruct (ch =? dquote)%char; [exact I |].
  destruct (ch =? backslash)%char.
  - destruct s1 as [| escaped s2]; [exact I |]. cbn [String.length] in L.
    repeat match goal with
           | |- no_value (if (escaped =? ?c)%char then _ else _) =>
               destruct (escaped =? c)%char; [apply IH; lia |]
           end.
    destruct (escaped =? "u")%char; [| exact I].
    destruct s2 as [| h1 [| h2 [| h3 [| h4 s3]]]]; try exact I.
    destruct (hex_loop _ _ _); [| exact I].
    apply IH. cbn [String.length] in L. lia.
  - destruct (uchar ch <? 32); [exact I |]. apply IH. lia.
Qed.

Lemma expect_no_undefined (c : ascii) (s : string) :
  (exists s', expect input c s = Ok s') \/ no_value (expect input c s).
Proof.
  unfold expect. destruct s as [| ch s0]; cbn [consume bind]; [right; exact I |].
  destruct (negb _); [right; exact I | left; eauto].
Qed.

Lemma parse_string_fuel (f f' : nat) (s : string) :
  parse_string input f s = parse_string input f' s.
Proof.
  unfold parse_string. destruct (expect input dquote s) as [s1 | | |]; try reflexivity.
  cbn [bind]. apply (parse_string_loop_fuel f f' _ _ _ (le_n _)).
Qed.

Lemma parse_string_no_value (f : nat) (s : string) : no_value (parse_string input f s).
Proof.
  unfold parse_string. destruct (expect_no_undefined dquote s) as [[s1 ->] | H].
  - cbn [bind]. apply (parse_string_loop_no_value f _ _ _ (le_n _)).
  - apply no_value_bind, H.
Qed.
End parser_leaves.

(** ** More fuel does not change a result *)

Lemma refines_refl {A : Type} (m : outcome A) : refines m m.
Proof. right; reflexivity. Qed.

Lemma refines_bind {A B : Type} (m1 m2 : outcome A) (k1 k2 : A -> outcome B) :
  refines m1 m2 -> (forall a, refines (k1 a) (k2 a)) -> refines (bind m1 k1) (bind m2 k2).
Proof.
  intros [-> | ->] K; [left; reflexivity |].
  destruct m2; simpl; auto using refines_refl.
Qed.

Section parser_fuel.
Variable input : string.

Lemma parse_array_with_refines (f f' : nat)
  (l1 l2 : string -> array_type -> outcome (value * string)) :
  (forall s acc, refines (l1 s acc) (l2 s acc)) ->
  forall s, refines (parse_array_with input f l1 s) (parse_array_with input f' l2 s).
Proof.
  intros L s. unfold parse_array_with. rewrite !value_braced_diverges.
  apply refines_bind; [apply refines_refl |].
  intros s1. destruct (peek_is _ _); [apply refines_refl | apply L].
Qed.

Lemma parse_object_with_refines (f f' : nat)
  (l1 l2 : string -> object_type -> outcome (value * string)) :
  (forall s acc, refines (l1 s acc) (l2 s acc)) ->
  forall s, refines (parse_object_with input f l1 s) (parse_object_with input f' l2 s).
Proof.
  intros L s. unfold parse_object_with. rewrite !value_braced_diverges.
  apply refines_bind; [apply refines_refl |].
  intros s1. destruct (peek_is _ _); [apply refines_refl | apply L].
Qed.

Lemma fuel_monotone (f : nat) :
  forall f', (f <= f')%nat ->
    (forall s, refines (parse_value input f s) (parse_value input f' s)) /\
    (forall s acc, refines (parse_array_loop input f s acc) (parse_array_loop input f' s acc)) /\
    (forall s acc, refines (parse_object_loop input f s acc) (parse_object_loop input f' s acc)).
Proof.
  induction f as [| f IH]; intros f' L.
  { repeat split; intros; left; reflexivity. }
  destruct f' as [| f']; [lia |].
  destruct (IH f' ltac:(lia)) as (IHv & IHa & IHo).
  repeat split.
  - intros s. cbn [parse_value].
    destruct (peek (skip_whitespace s)) as [ch |]; [| apply refines_refl].
    rewrite !parse_null_value, !parse_boolean_value, (parse_string_fuel input f f'),
      (parse_number_fuel input f f').
    repeat match goal with
           | |- refines (if ?c then _ else _) _ => destruct c; [try apply refines_refl |]
           end;
      try apply refines_refl.
    + apply parse_array_with_refines, IHa.
    + apply parse_object_with_refines, IHo.
  - intros s acc. cbn [parse_array_loop].
    apply refines_bind; [apply IHv |]. intros [val s1]. cbv zeta.
    destruct (peek (skip_whitespace s1)) as [ch |]; [| apply refines_refl].
    destruct (ch =? "]")%char; [rewrite !value_braced_diverges; apply refines_refl |].
    destruct (ch =? ",")%char; [| apply refines_refl].
    destruct (peek_is _ _); [apply refines_refl | apply IHa].
  - intros s acc. cbn [parse_object_loop]. cbv zeta.
    destruct (negb _); [apply refines_refl |].
    rewrite (parse_string_fuel input f f').
    apply refines_bind; [apply refines_refl |]. intros [keyv s1].
    apply refines_bind; [apply refines_refl |]. intros key.
    apply refines_bind; [apply refines_refl |]. intros s2.
    apply refines_bind; [apply IHv |]. intros [val s3].
    destruct (peek (skip_whitespace s3)) as [ch |]; [| apply refines_refl].
    destruct (ch =? "}")%char; [rewrite !value_braced_diverges; apply refines_refl |].
    destruct (ch =? ",")%char; [| apply refines_refl].
    destruct (peek_is _ _); [apply refines_refl | apply IHo].
Qed.

(** ** No call of the parser returns a value *)

Lemma parse_value_no_value (f : nat) :
  (forall s, no_value (parse_value input f s)) /\
  (forall s acc, no_value (parse_array_loop input f s acc)) /\
  (forall s acc, no_value (parse_object_loop input f s acc)).
Proof.
  induction f as [| f (IHv & IHa & IHo)]; [repeat split; intros; exact I |].
  repeat split.
  - intros s. cbn [parse_value].
    destruct (peek (skip_whitespace s)) as [ch |]; [| exact I].
    rewrite parse_null_value, parse_boolean_value.
    destruct (ch =? "n")%char; [destruct (negb _); exact I |].
    destruct ((ch =? "t")%char || (ch =? "f")%char);
      [destruct (prefix "true" _); [exact I | destruct (prefix "false" _); exact I] |].
    destruct (ch =? dquote)%char; [apply parse_string_no_value |].
    destruct (ch =? "[")%char.
    { unfold parse_array_with. rewrite value_braced_diverges.
      destruct (expect_no_undefined input "[" (skip_whitespace s)) as [[s1 ->] | H];
        [| apply no_value_bind, H].
      cbn [bind]. destruct (peek_is _ _); [exact I | apply IHa]. }
    destruct (ch =? "{")%char.
    { unfold parse_object_with. rewrite value_braced_diverges.
      destruct (expect_no_undefined input "{" (skip_whitespace s)) as [[s1 ->] | H];
        [| apply no_value_bind, H].
      cbn [bind]. destruct (peek_is _ _); [exact I | apply IHo]. }
    destruct ((ch =? "-")%char || isdigit ch); [apply parse_number_no_value | exact I].
  - intros s acc. cbn [parse_array_loop]. apply no_value_bind, IHv.
  - intros s acc. cbn [parse_object_loop]. cbv zeta.
    destruct (negb _); [exact I |]. apply no_value_bind, parse_string_no_value.
Qed.

Lemma parser_parse_no_value (f : nat) : no_value (parser_parse input f).
Proof. unfold parser_parse. apply no_value_bind, parse_value_no_value. Qed.

(** The loops stop at their first element. *)
Lemma parse_array_loop_first (f : nat) (s : string) (acc : array_type) :
  parse_array_loop input (S f) s acc = ('(val, s1) <- parse_value input f s ;; OutOfFuel).
Proof.
  cbn [parse_array_loop]. pose proof (proj1 (parse_value_no_value f) s) as H.
  destruct (parse_value input f s) as [a | | |]; [contradiction | reflexivity ..].
Qed.

Lemma parse_object_loop_first (f : nat) (s : string) (acc : object_type) :
  parse_object_loop input (S f) s acc =
    if negb (peek_is (skip_whitespace s) dquote) then
      Throw (parse_exception "Expected string key in object"
               (position_ input (skip_whitespace s)))
    else ('(keyv, s1) <- parse_string input f (skip_whitespace s) ;; OutOfFuel).
Proof.
  cbn [parse_object_loop]. cbv zeta. destruct (negb _); [reflexivity |].
  pose proof (parse_string_no_value input f (skip_whitespace s)) as H.
  destruct (parse_string input f _) as [a | | |]; [contradiction | reflexivity ..].
Qed.
End parser_fuel.

(** ** The fuel of [parse] *)

Section parser_enough.
Variable input : string.

Lemma expect_length (c : ascii) (s s' : string) :
  expect input c s = Ok s' -> String.length s = S (String.length s').
Proof.
  unfold expect. destruct s as [| ch s0]; simpl; [discriminate |].
  destruct (ch =? c)%char; simpl; [| discriminate].
  intros H; injection H as <-. reflexivity.
Qed.

(** An exception is thrown with the fuel that [parse] starts with. *)
Lemma parse_value_throw_fuel (f : nat) :
  (forall s e f', parse_value input f s = Throw e ->
                  (2 * String.length s + 1 <= f')%nat -> parse_value input f' s = Throw e) /\
  (forall s acc e f', parse_array_loop input f s acc = Throw e ->
                      (2 * String.length s + 2 <= f')%nat ->
                      parse_array_loop input f' s acc = Throw e) /\
  (forall s acc e f', parse_object_loop input f s acc = Throw e ->
                      (2 * String.length s + 2 <= f')%nat ->
                      parse_object_loop input f' s acc = Throw e).
Proof.
  induction f as [| f (IHv & IHa & IHo)]; [repeat split; intros; discriminate |].
  repeat split.
  - intros s e f' H L. destruct f' as [| g]; [lia |]. revert H. cbn [parse_value].
    pose proof (skip_whitespace_length s) as W.
    destruct (peek (skip_whitespace s)) as [ch |]; [| auto].
    rewrite !parse_null_value, !parse_boolean_value, (parse_string_fuel input f g),
      (parse_number_fuel input f g).
    repeat match goal with
           | |- (if ?c then _ else _) = _ -> _ => destruct c; [try (intros H; exact H) |]
           end; try (intros H; exact H).
    + unfold parse_array_with. rewrite !value_braced_diverges.
      destruct (expect input "[" (skip_whitespace s)) as [s1 | | |] eqn:E; cbn [bind];
        try (intros H; exact H).
      apply expect_length in E. pose proof (skip_whitespace_length s1) as W1.
      destruct (peek_is _ _); [intros H; exact H |].
      intros H. apply (IHa _ _ _ _ H). lia.
    + unfold parse_object_with. rewrite !value_braced_diverges.
      destruct (expect input "{" (skip_whitespace s)) as [s1 | | |] eqn:E; cbn [bind];
        try (intros H; exact H).
      apply expect_length in E. pose proof (skip_whitespace_length s1) as W1.
      destruct (peek_is _ _); [intros H; exact H |].
      intros H. apply (IHo _ _ _ _ H). lia.
  - intros s acc e f' H L. destruct f' as [| g]; [lia |].
    rewrite parse_array_loop_first in *.
    destruct (parse_value input f s) as [[v s1] | e' | |] eqn:E; cbn [bind] in H;
      try discriminate H.
    injection H as <-. rewrite (IHv _ _ g E) by lia. reflexivity.
  - intros s acc e f' H L. destruct f' as [| g]; [lia |].
    rewrite parse_object_loop_first in *. destruct (negb _); [exact H |].
    rewrite (parse_string_fuel input g f). exact H.
Qed.

Lemma parse_value_any_fuel (f f' : nat) (s : string) :
  parse_value input f s <> OutOfFuel ->
  (2 * String.length s + 1 <= f')%nat ->
  parse_value input f' s = parse_value input f s.
Proof.
  intros N L.
  destruct (no_value_cases _ (proj1 (parse_value_no_value input f) s))
    as [E | (m & p & E)]; [contradiction |].
  rewrite E. apply (proj1 (parse_value_throw_fuel f) _ _ _ E L).
Qed.
End parser_enough.

(** The fuel of [parse] is enough: with any other fuel [parser::parse] has
    the outcome of [parse], unless the fuel is used up. *)
Lemma parse_fuel_enough (text : string) (fuel : nat) :
  refines (parser_parse text fuel) (parse text).
Proof.
  unfold parse, parser_parse.
  destruct (no_value_cases _ (proj1 (parse_value_no_value text fuel) (skip_whitespace text)))
    as [E | (m & p & E)]; rewrite E; [left; reflexivity | right].
  rewrite (proj1 (parse_value_throw_fuel text fuel) _ _ _ E); [reflexivity |].
  pose proof (skip_whitespace_length text). lia.
Qed.

(** What [parse] does not finish, no fuel finishes. *)
Lemma parse_diverges (text : string) :
  parse text = OutOfFuel -> forall fuel, parser_parse text fuel = OutOfFuel.
Proof.
  intros H fuel. destruct (parse_fuel_enough text fuel) as [E | E]; [exact E |].
  rewrite E. exact H.
Qed.

Lemma parse_value_diverges_parse (text : string) (fuel : nat) :
  parse_value text fuel (skip_whitespace text) = OutOfFuel ->
  parser_parse text fuel = OutOfFuel.
Proof. intros H. unfold parser_parse. rewrite H. reflexivity. Qed.

Lemma parse_of_throw (text : string) (f : nat) (e : exn) :
  parse_value text f (skip_whitespace text) = Throw e -> parse text = Throw e.
Proof.
  intros H. unfold parse, parser_parse.
  rewrite (parse_value_any_fuel text f) by
    (rewrite ?H; try discriminate; pose proof (skip_whitespace_length text); lia).
  rewrite H. reflexivity.
Qed.

(** ** What the parser throws *)

Ltac first_token :=
  unfold first_token_message;
  repeat first [ reflexivity | left; reflexivity | left; eexists; reflexivity | right ].

Ltac early :=
  cbn [stops_early]; split;
  [first_token | unfold position_; cbn [String.length]; lia].

Lemma hex_loop_index (hs : list ascii) :
  forall i0 c i, hex_loop hs i0 c = inr i -> (i0 <= i < i0 + List.length hs)%nat.
Proof.
  induction hs as [| h hs IH]; intros i0 c i; cbn [hex_loop List.length]; [discriminate |].
  destruct (hex_value h).
  - intros H. apply IH in H. lia.
  - intros H. injection H as <-. lia.
Qed.

Section parser_early.
Variable input : string.

Lemma stops_early_bind {A B : Type} (m : outcome A) (k : A -> outcome B) :
  stops_early input m -> stops_early input (bind m k).
Proof. destruct m as [a | [] | |]; cbn; auto; intros []. Qed.

Lemma parse_string_loop_early (f : nat) (n : nat) :
  forall s result,
    (String.length s <= n)%nat -> (String.length s <= String.length input)%nat ->
    stops_early input (parse_string_loop input f s result).
Proof.
  induction n as [| n IH]; intros s result L B;
    destruct s as [| ch s1]; cbn [String.length] in L, B; try lia;
    try (cbn [parse_string_loop]; early).
  cbn [parse_string_loop]. rewrite value_braced_diverges.
  destruct (ch =? dquote)%char; [exact I |].
  destruct (ch =? backslash)%char.
  - destruct s1 as [| escaped s2]; [early |]. cbn [String.length] in L, B.
    repeat match goal with
           | |- stops_early _ (if (escaped =? ?c)%char then _ else _) =>
               destruct (escaped =? c)%char; [apply IH; lia |]
           end.
    destruct (escaped =? "u")%char; [| early].
    destruct s2 as [| h1 [| h2 [| h3 [| h4 s3]]]]; try early.
    destruct (hex_loop _ _ _) as [cp | i] eqn:H.
    + apply IH; cbn [String.length] in *; lia.
    + apply hex_loop_index in H. cbn [List.length] in H. cbn [String.length] in B.
      cbn [stops_early]. split; [first_token |].
      unfold position_. cbn [String.length]. lia.
  - destruct (uchar ch <? 32); [early |].
    apply IH; lia.
Qed.

Lemma parse_string_early (f : nat) (s : string) :
  (S (String.length s) <= String.length input)%nat ->
  stops_early input (parse_string input f (String dquote s)).
Proof.
  intros B. unfold parse_string, expect. cbn [consume bind].
  change (negb (dquote =? dquote)%char) with false. cbn iota. cbn [bind].
  apply (parse_string_loop_early f _ _ _ (le_n _)). lia.
Qed.

Lemma parse_number_early (f : nat) (s : string) :
  stops_early input (parse_number input f s).
Proof.
  unfold parse_number. cbv zeta.
  repeat first
    [ progress cbn [bind orb]
    | match goal with |- context [if ?c then _ else _] => destruct c end
    | match goal with
      | |- context [match ?o with Some _ => _ | None => _ end] => destruct o
      end ];
  rewrite ?value_braced_diverges; first [exact I | early].
Qed.

(** Whatever the parser throws is a [parse_exception] of a first token, with
    an offset inside the input. *)
Lemma parse_value_early (f : nat) :
  (forall s, (String.length s <= String.length input)%nat ->
             stops_early input (parse_value input f s)) /\
  (forall s acc, (String.length s <= String.length input)%nat ->
                 stops_early input (parse_array_loop input f s acc)) /\
  (forall s acc, (String.length s <= String.length input)%nat ->
                 stops_early input (parse_object_loop input f s acc)).
Proof.
  induction f as [| f (IHv & IHa & IHo)].
  { repeat split; intros; exact I. }
  repeat split.
  - intros s B. cbn [parse_value]. pose proof (skip_whitespace_length s) as W.
    destruct (skip_whitespace s) as [| ch s0] eqn:Sk; cbn [peek]; [early |].
    cbn [String.length] in W.
    rewrite parse_null_value, parse_boolean_value.
    destruct (ch =? "n")%char; [destruct (negb _); [early | exact I] |].
    destruct ((ch =? "t")%char || (ch =? "f")%char);
      [destruct (prefix "true" _); [exact I | destruct (prefix "false" _); [exact I | early]] |].
    destruct (ch =? dquote)%char eqn:Q.
    { apply Ascii.eqb_eq in Q. subst ch. apply (parse_string_early f). lia. }
    destruct (ch =? "[")%char eqn:A.
    { apply Ascii.eqb_eq in A. subst ch. unfold parse_array_with, expect.
      cbn [consume bind]. change (negb ("[" =? "[")%char) with false. cbn iota. cbn [bind].
      cbv zeta. rewrite value_braced_diverges. pose proof (skip_whitespace_length s0).
      destruct (peek_is _ _); [exact I | apply IHa; lia]. }
    destruct (ch =? "{")%char eqn:O.
    { apply Ascii.eqb_eq in O. subst ch. unfold parse_object_with, expect.
      cbn [consume bind]. change (negb ("{" =? "{")%char) with false. cbn iota. cbn [bind].
      cbv zeta. rewrite value_braced_diverges. pose proof (skip_whitespace_length s0).
      destruct (peek_is _ _); [exact I | apply IHo; lia]. }
    destruct ((ch =? "-")%char || isdigit ch); [apply parse_number_early | early].
  - intros s acc B. cbn [parse_array_loop]. apply stops_early_bind, IHv, B.
  - intros s acc B. rewrite parse_object_loop_first.
    pose proof (skip_whitespace_length s) as W.
    destruct (skip_whitespace s) as [| ch s0] eqn:Sk; [early |].
    unfold peek_is. cbn [peek]. cbn [String.length] in W.
    destruct (ch =? dquote)%char eqn:Q; cbn [negb]; [| early].
    apply Ascii.eqb_eq in Q. subst ch.
    apply stops_early_bind, (parse_string_early f). lia.
Qed.
End parser_early.

(** X1: [parse] returns no value.  With any fuel, [parser::parse] has thrown
    a [parse_exception] with one of the messages of a first token and an
    offset that is at most the length of the text, or it is still running:
    every [return] of the parser goes through the constructor from an
    initializer list, which does not return. *)
Theorem parse_never_returns (text : string) (fuel : nat) :
  parser_parse text fuel = OutOfFuel \/
  exists message position,
    parser_parse text fuel = Throw (parse_exception message position) /\
    first_token_message message /\ (position <= String.length text)%nat.
Proof.
  pose proof (proj1 (parse_value_early text fuel) (skip_whitespace text)
                (skip_whitespace_length text)) as H.
  unfold parser_parse.
  destruct (parse_value text fuel (skip_whitespace text)) as [a | [] | |];
    cbn [stops_early bind] in *; try contradiction; [right | left; reflexivity].
  eexists _, _. split; [reflexivity | exact H].
Qed.

(** ** Characters, digits and decimal texts *)

Lemma skip_whitespace_all_space (s : string) :
  all_space s = true <-> skip_whitespace s = "".
Proof.
  induction s as [| ch s IH]; simpl; [tauto |].
  destruct (isspace ch); simpl; [exact IH |]. split; discriminate.
Qed.

Lemma digit_not_space (d : ascii) : isdigit d = true -> isspace d = false.
Proof. destruct d as [[] [] [] [] [] [] [] []]; intros H; try discriminate H; reflexivity. Qed.

Lemma substring_prefix (a b : string) :
  substring 0 (String.length (a ++ b) - String.length b) (a ++ b) = a.
Proof.
  rewrite length_append. replace (_ + _ - _)%nat with (String.length a) by lia.
  induction a as [| ch a IH]; simpl; [destruct b; reflexivity | rewrite IH; reflexivity].
Qed.

Lemma digit_char_spec (d : Z) :
  0 <= d < 10 ->
  isdigit (digit_char d) = true /\ digit_value (digit_char d) = d /\
  ((digit_char d =? "0")%char = true -> d = 0).
Proof.
  intros H.
  assert (C : d = 0 \/ d = 1 \/ d = 2 \/ d = 3 \/ d = 4 \/ d = 5 \/ d = 6 \/ d = 7 \/
              d = 8 \/ d = 9) by lia.
  repeat destruct C as [-> | C]; try subst d; repeat split; intros; try reflexivity;
    discriminate.
Qed.

Lemma all_digits_app (a b : string) :
  all_digits (a ++ b) = all_digits a && all_digits b.
Proof.
  induction a as [| ch a IH]; simpl; [reflexivity |].
  rewrite IH, andb_assoc. reflexivity.
Qed.

Lemma decimal_digits_spec (f : nat) :
  forall a acc, 0 <= a < 2 ^ Z.of_nat (S f) ->
    exists ds,
      decimal_digits (S f) a acc = ds ++ acc /\
      all_digits ds = true /\
      (forall r x, digits_value (ds ++ r) x
                   = digits_value r (x * 10 ^ Z.of_nat (String.length ds) + a)) /\
      exists c ds', ds = String c ds' /\ ((c =? "0")%char = true -> ds' = "" /\ a = 0).
Proof.
  induction f as [| f IH]; intros a acc H.
  - assert (L : (a <? 10) = true) by (apply Z.ltb_lt; simpl in H; lia).
    cbn [decimal_digits]. rewrite L.
    destruct (digit_char_spec (a mod 10)) as (D1 & D2 & D3); [apply Z.mod_pos_bound; lia |].
    rewrite Z.mod_small in * by (simpl in H; lia).
    exists (String (digit_char a) ""). repeat split.
    + simpl. rewrite D1. reflexivity.
    + intros r x. cbn [append digits_value String.length]. rewrite D1, D2.
      change (Z.of_nat 1) with 1. rewrite Z.pow_1_r. f_equal. lia.
    + exists (digit_char a), "". split; [reflexivity |]. intros E. split; auto.
  - cbn [decimal_digits].
    destruct (digit_char_spec (a mod 10)) as (D1 & D2 & D3); [apply Z.mod_pos_bound; lia |].
    destruct (a <? 10) eqn:L.
    + apply Z.ltb_lt in L. rewrite Z.mod_small in * by lia.
      exists (String (digit_char a) ""). repeat split.
      * simpl. rewrite D1. reflexivity.
      * intros r x. cbn [append digits_value String.length]. rewrite D1, D2.
        change (Z.of_nat 1) with 1. rewrite Z.pow_1_r. f_equal. lia.
      * exists (digit_char a), "". split; [reflexivity |]. intros E. split; auto.
    + apply Z.ltb_ge in L.
      assert (B : 0 <= a / 10 < 2 ^ Z.of_nat (S f)).
      { split; [apply Z.div_pos; lia |].
        apply Z.div_lt_upper_bound; [lia |].
        rewrite (Nat2Z.inj_succ (S f)), Z.pow_succ_r in H by lia. lia. }
      destruct (IH (a / 10) (String (digit_char (a mod 10)) acc) B)
        as (ds0 & E & A & V & c & ds' & -> & Z0).
      exists (String c ds' ++ String (digit_char (a mod 10)) "").
      repeat split.
      * rewrite append_assoc. exact E.
      * rewrite all_digits_app, A. simpl. rewrite D1. reflexivity.
      * intros r x. rewrite append_assoc, V. cbn [append digits_value]. rewrite D1, D2.
        f_equal. cbn [String.length]. rewrite length_append. cbn [String.length].
        rewrite Nat.add_1_r, (Nat2Z.inj_succ (S _)), Z.pow_succ_r by lia.
        pose proof (Z.div_mod a 10 ltac:(lia)). lia.
      * exists c, (ds' ++ String (digit_char (a mod 10)) ""). split; [reflexivity |].
        intros C0. apply Z0 in C0. destruct C0 as [_ C0].
        exfalso. assert (a / 10 > 0) by (apply Z.lt_gt, Z.div_str_pos; lia). lia.
Qed.

Lemma decimal_of_nonneg_spec (a : Z) :
  0 <= a ->
  exists c ds',
    decimal_of_nonneg a = String c ds' /\
    isdigit c = true /\ all_digits ds' = true /\
    (forall r x, digits_value (String c ds' ++ r) x
                 = digits_value r (x * 10 ^ Z.of_nat (S (String.length ds')) + a)) /\
    ((c =? "0")%char = true -> ds' = "" /\ a = 0).
Proof.
  intros H. unfold decimal_of_nonneg.
  destruct (decimal_digits_spec (Z.to_nat (Z.log2 a)) a "") as (ds & E & A & V & c & ds' & -> & Z0).
  { split; [exact H |]. rewrite Nat2Z.inj_succ, Z2Nat.id by apply Z.log2_nonneg.
    destruct (Z.eq_dec a 0) as [-> | N]; [reflexivity |].
    apply Z.log2_spec. lia. }
  rewrite append_empty_r in E. simpl in A. apply andb_prop in A. destruct A as [A1 A2].
  exists c, ds'. repeat split; auto; apply Z0; assumption.
Qed.

Lemma skip_digits_all (ds rest : string) :
  all_digits ds = true -> no_digit rest = true -> skip_digits (ds ++ rest) = rest.
Proof.
  induction ds as [| ch ds IH]; simpl; intros A N.
  - destruct rest as [| c r]; [reflexivity |]. unfold no_digit in N. simpl in *.
    apply negb_true_iff in N. rewrite N. reflexivity.
  - apply andb_prop in A. destruct A as [A1 A2]. rewrite A1. auto.
Qed.

Lemma from_chars_int64_digit (c : ascii) (r : string) :
  isdigit c = true ->
  from_chars_int64 (String c r) =
    if in_int64 (digits_value (String c r) 0) then Some (digits_value (String c r) 0)
    else None.
Proof.
  intros D. unfold from_chars_int64.
  destruct c as [[] [] [] [] [] [] [] []]; try discriminate D; cbv iota beta;
    rewrite D; reflexivity.
Qed.

Lemma delimited_no_number (rest : string) :
  delimited rest = true ->
  no_digit rest = true /\ peek_is rest "." = false /\
  peek_is rest "e" = false /\ peek_is rest "E" = false.
Proof.
  destruct rest as [| c r]; [repeat split |]. unfold delimited, no_digit, peek_is. cbn [peek].
  intros H. repeat (apply orb_prop in H; destruct H as [H | H]);
    apply Ascii.eqb_eq in H; subst c; repeat split.
Qed.

Lemma digit_not_sign (c : ascii) :
  isdigit c = true -> (c =? "-")%char = false.
Proof. destruct c as [[] [] [] [] [] [] [] []]; intros H; try discriminate H; reflexivity. Qed.

Section parser_starts.
Variable input : string.

Lemma parse_value_skip (f : nat) (s : string) :
  parse_value input f (skip_whitespace s) = parse_value input f s.
Proof. destruct f; cbn [parse_value]; [| rewrite skip_whitespace_idem]; reflexivity. Qed.

Lemma parse_value_number_start (f : nat) (c : ascii) (r : string) :
  c = "-"%char \/ isdigit c = true ->
  parse_value input (S f) (String c r) = parse_number input f (String c r).
Proof.
  intros [-> | D]; [reflexivity |].
  destruct c as [[] [] [] [] [] [] [] []]; try discriminate D; reflexivity.
Qed.

Lemma parse_value_string_start (f : nat) (x : string) :
  parse_value input (S f) (String dquote x) = parse_string_loop input f x "".
Proof. reflexivity. Qed.

Lemma parse_value_array_start (f : nat) (x : string) :
  parse_value input (S f) (String "[" x) =
    if peek_is (skip_whitespace x) "]" then OutOfFuel
    else parse_array_loop input f (skip_whitespace x) [].
Proof.
  cbn [parse_value skip_whitespace]. change (isspace "[") with false. cbn iota.
  cbn [peek]. change ("[" =? "n")%char with false. cbn iota.
  unfold parse_array_with, expect. cbn [consume bind].
  change (negb ("[" =? "[")%char) with false. cbn iota. cbn [bind].
  rewrite value_braced_diverges. reflexivity.
Qed.

Lemma parse_value_object_start (f : nat) (x : string) :
  parse_value input (S f) (String "{" x) =
    if peek_is (skip_whitespace x) "}" then OutOfFuel
    else parse_object_loop input f (skip_whitespace x) [].
Proof.
  cbn [parse_value skip_whitespace]. change (isspace "{") with false. cbn iota.
  cbn [peek]. change ("{" =? "n")%char with false. cbn iota.
  unfold parse_object_with, expect. cbn [consume bind].
  change (negb ("{" =? "{")%char) with false. cbn iota. cbn [bind].
  rewrite value_braced_diverges. reflexivity.
Qed.
End parser_starts.

(** * The parser: texts that are refused at their first token *)

(** X2: a text of white space only, the empty text included, is refused
    with "Unexpected end of input" at its end. *)
Theorem parse_blank (text : string) :
  all_space text = true ->
  parse text = Throw (parse_exception "Unexpected end of input" (String.length text)).
Proof.
  intros H. apply skip_whitespace_all_space in H.
  unfold parse, parser_parse. cbn [parse_value]. rewrite skip_whitespace_idem, H.
  cbn [peek bind]. unfold position_. cbn [String.length]. rewrite Nat.sub_0_r. reflexivity.
Qed.

Lemma parse_blank_witness :
  parse (String " " (String char_n (String char_t " ")))
  = Throw (parse_exception "Unexpected end of input" 4).
Proof.
  apply (parse_blank (String " " (String char_n (String char_t " ")))). reflexivity.
Defined.

(** X3: when the first character behind the leading white space can start
    no value, [parse] throws "Unexpected character" with the offset of that
    character. *)
Theorem parse_unexpected_character (ws rest : string) (ch : ascii) :
  all_space ws = true -> isspace ch = false -> starts_token ch = false ->
  parse (ws ++ String ch rest)
  = Throw (parse_exception ("Unexpected character '" ++ char_string ch ++ "'")
             (String.length ws)).
Proof.
  intros W Sp T. unfold parse, parser_parse. cbn [parse_value].
  rewrite skip_whitespace_idem, skip_whitespace_spaces by exact W.
  cbn [skip_whitespace]. rewrite Sp. cbn [peek]. clear Sp W.
  unfold starts_token in T.
  repeat (apply orb_false_iff in T; destruct T as [T ?]).
  repeat match goal with H : _ = false |- _ => rewrite H; clear H end.
  cbn [orb bind]. unfold position_. rewrite length_append. cbn [String.length].
  replace (String.length ws + S (String.length rest) - S (String.length rest))%nat
    with (String.length ws) by lia.
  reflexivity.
Qed.

Lemma parse_unexpected_character_witness :
  parse "  }x" = Throw (parse_exception "Unexpected character '}'" 2).
Proof.
  apply (parse_unexpected_character "  " "x" "}"); reflexivity.
Defined.

Lemma skip_whitespace_stop (ws r : string) (c : ascii) :
  all_space ws = true -> isspace c = false ->
  skip_whitespace (ws ++ String c r) = String c r.
Proof.
  intros W C. rewrite skip_whitespace_spaces by exact W. cbn [skip_whitespace].
  rewrite C. reflexivity.
Qed.

Lemma parse_of_throw_behind_space (ws s : string) (c : ascii) (f : nat) (e : exn) :
  all_space ws = true -> isspace c = false ->
  parse_value (ws ++ String c s) f (String c s) = Throw e ->
  parse (ws ++ String c s) = Throw e.
Proof.
  intros W C H. apply (parse_of_throw _ f).
  rewrite skip_whitespace_stop by assumption. exact H.
Qed.

Lemma position_behind (ws s : string) : position_ (ws ++ s) s = String.length ws.
Proof. unfold position_. rewrite length_append. lia. Qed.

(** X27: a text that starts with [n] and is not [null] is refused:
    [parse] throws "Invalid null literal" with the offset of the [n]. *)
Theorem parse_invalid_null (ws r : string) :
  all_space ws = true -> prefix "null" (String "n" r) = false ->
  parse (ws ++ String "n" r)
  = Throw (parse_exception "Invalid null literal" (String.length ws)).
Proof.
  intros W P. apply (parse_of_throw_behind_space ws r "n" 1 _ W eq_refl).
  cbn [parse_value skip_whitespace]. change (isspace "n") with false. cbn iota.
  cbn [peek]. change ("n" =? "n")%char with true. cbn iota.
  unfold parse_null. rewrite P. cbn [negb]. rewrite position_behind. reflexivity.
Qed.

Lemma parse_invalid_null_witness :
  parse " nul" = Throw (parse_exception "Invalid null literal" 1).
Proof. apply (parse_invalid_null " " "ul"); reflexivity. Defined.

(** X28: a text that starts with [t] or [f] and is neither [true] nor
    [false] is refused: [parse] throws "Invalid boolean literal" with the
    offset of the letter. *)
Theorem parse_invalid_boolean (ws r : string) (c : ascii) :
  all_space ws = true -> c = "t"%char \/ c = "f"%char ->
  prefix "true" (String c r) = false -> prefix "false" (String c r) = false ->
  parse (ws ++ String c r)
  = Throw (parse_exception "Invalid boolean literal" (String.length ws)).
Proof.
  intros W C P1 P2.
  assert (Sp : isspace c = false) by (destruct C as [-> | ->]; reflexivity).
  apply (parse_of_throw_behind_space ws r c 1 _ W Sp).
  assert (E : parse_value (ws ++ String c r) 1 (String c r)
              = parse_boolean (ws ++ String c r) 0 (String c r)).
  { cbn [parse_value skip_whitespace]. rewrite Sp. cbn [peek].
    destruct C as [-> | ->]; reflexivity. }
  rewrite E. unfold parse_boolean. rewrite P1, P2, position_behind. reflexivity.
Qed.

Lemma parse_invalid_boolean_witness :
  parse "  fals" = Throw (parse_exception "Invalid boolean literal" 2).
Proof. apply (parse_invalid_boolean "  " "als" "f"); auto. Defined.

(** ** Strings *)

Lemma hex_value_range (h : ascii) (d : Z) : hex_value h = Some d -> 0 <= d < 16.
Proof.
  unfold hex_value.
  destruct ((48 <=? uchar h) && (uchar h <=? 57)) eqn:E1;
    [| destruct ((97 <=? uchar h) && (uchar h <=? 102)) eqn:E2;
       [| destruct ((65 <=? uchar h) && (uchar h <=? 70)) eqn:E3]];
    intros H; try discriminate H; injection H as <-;
    repeat match goal with
           | E : _ && _ = true |- _ => apply andb_prop in E; destruct E
           end; lia.
Qed.

Lemma lor_shiftl_4 (x d : Z) : 0 <= x -> 0 <= d < 16 -> Z.lor (Z.shiftl x 4) d = 16 * x + d.
Proof.
  intros Hx Hd.
  assert (L : Z.land (Z.shiftl x 4) d = 0).
  { apply Z.bits_inj'. intros n Hn. rewrite Z.land_spec, Z.bits_0.
    destruct (Z.ltb_spec n 4).
    - rewrite Z.shiftl_spec_low by lia. reflexivity.
    - rewrite (Z.bits_above_log2 d n); [apply andb_false_r | lia |].
      destruct (Z.eq_dec d 0) as [-> | ]; [simpl; lia |].
      assert (Z.log2 d < 4) by (apply Z.log2_lt_pow2; [lia | change (2 ^ 4) with 16; lia]). lia. }
  rewrite <- Z.lxor_lor by exact L. rewrite <- Z.add_nocarry_lxor by exact L.
  rewrite Z.shiftl_mul_pow2 by lia. change (2 ^ 4) with 16. lia.
Qed.

Lemma hex_loop_four (h1 h2 h3 h4 : ascii) (d1 d2 d3 d4 : Z) :
  hex_value h1 = Some d1 -> hex_value h2 = Some d2 ->
  hex_value h3 = Some d3 -> hex_value h4 = Some d4 ->
  hex_loop [h1; h2; h3; h4] 0 0 = inl (4096 * d1 + 256 * d2 + 16 * d3 + d4).
Proof.
  intros H1 H2 H3 H4. cbn [hex_loop]. rewrite H1. cbn [hex_loop]. rewrite H2. cbn [hex_loop]. rewrite H3. cbn [hex_loop]. rewrite H4. cbn [hex_loop].
  pose proof (hex_value_range _ _ H1). pose proof (hex_value_range _ _ H2).
  pose proof (hex_value_range _ _ H3). pose proof (hex_value_range _ _ H4).
  rewrite (lor_shiftl_4 0 d1) by lia.
  rewrite (lor_shiftl_4 _ d2) by lia.
  rewrite (lor_shiftl_4 _ d3) by lia.
  rewrite (lor_shiftl_4 _ d4) by lia.
  f_equal. lia.
Qed.


Section string_text.
Variable input : string.
Variable fuel : nat.

Lemma parse_string_loop_char (ch : ascii) (tail acc : string) :
  parse_string_loop input fuel (serialize_char ch ++ tail) acc
  = parse_string_loop input fuel tail (acc ++ char_string ch).
Proof. destruct ch as [[] [] [] [] [] [] [] []]; reflexivity. Qed.

Lemma parse_string_loop_prefix (s tail : string) :
  forall acc,
    parse_string_loop input fuel (serialize_chars s ++ tail) acc
    = parse_string_loop input fuel tail (acc ++ s).
Proof.
  induction s as [| ch s IH]; intros acc.
  - cbn [serialize_chars append]. rewrite append_empty_r. reflexivity.
  - cbn [serialize_chars]. rewrite append_assoc, parse_string_loop_char, IH.
    rewrite append_assoc. reflexivity.
Qed.

Lemma is_hex_digit_value (h : ascii) :
  is_hex_digit h = true -> exists d, hex_value h = Some d.
Proof. unfold is_hex_digit. destruct (hex_value h); [eauto | discriminate]. Qed.

(** The loop reads the inside of a string literal and goes on behind it. *)
Lemma parse_string_loop_body (p : string) :
  string_body p ->
  forall tail acc, exists acc',
    parse_string_loop input fuel (p ++ tail) acc = parse_string_loop input fuel tail acc'.
Proof.
  induction 1 as [| ch p Q B C _ IH | ch p E _ IH | h1 h2 h3 h4 p H1 H2 H3 H4 _ IH];
    intros tail acc.
  - exists acc. reflexivity.
  - cbn [append parse_string_loop]. rewrite Q, B, C. apply IH.
  - cbn [append parse_string_loop].
    change (backslash =? dquote)%char with false.
    change (backslash =? backslash)%char with true. cbn iota.
    unfold simple_escape in E.
    repeat match goal with
           | |- exists _, (if (ch =? ?c)%char then _ else _) = _ =>
               destruct (ch =? c)%char; [apply IH |]
           end.
    discriminate E.
  - cbn [append parse_string_loop].
    change (backslash =? dquote)%char with false.
    change (backslash =? backslash)%char with true.
    change ("u" =? dquote)%char with false.
    change ("u" =? backslash)%char with false.
    change ("u" =? "/")%char with false.
    change ("u" =? "b")%char with false.
    change ("u" =? "f")%char with false.
    change ("u" =? "n")%char with false.
    change ("u" =? "r")%char with false.
    change ("u" =? "t")%char with false.
    change ("u" =? "u")%char with true.
    cbv iota.
    destruct (is_hex_digit_value _ H1) as [d1 E1].
    destruct (is_hex_digit_value _ H2) as [d2 E2].
    destruct (is_hex_digit_value _ H3) as [d3 E3].
    destruct (is_hex_digit_value _ H4) as [d4 E4].
    rewrite (hex_loop_four _ _ _ _ _ _ _ _ E1 E2 E3 E4). apply IH.
Qed.
End string_text.






(** ** Numbers *)

Section number_range.
Variable input : string.

(** The decimal text of any integer, read by [parse_number]: an [int64_t]
    reaches the constructor of the value, any other integer is refused. *)
Lemma parse_number_decimal (f : nat) (z : Z) (rest : string) :
  delimited rest = true ->
  parse_number input f (string_of_int64 z ++ rest) =
    if in_int64 z then OutOfFuel
    else Throw (parse_exception "Failed to parse integer"
                  (position_ input (string_of_int64 z ++ rest))).
Proof.
  intros Dl. destruct (delimited_no_number rest Dl) as (N & P1 & P2 & P3).
  unfold string_of_int64.
  destruct (z <? 0) eqn:Neg.
  - apply Z.ltb_lt in Neg.
    destruct (decimal_of_nonneg_spec (- z)) as (c & ds' & E & D & A & V & Z0); [lia |].
    rewrite E. unfold parse_number. cbv zeta.
    change (peek_is (String "-" (String c ds') ++ rest) "-") with true. cbv iota.
    change (drop 1 (String "-" (String c ds') ++ rest)) with (String c (ds' ++ rest)).
    unfold no_digit at 1. cbn [peek]. rewrite D. cbn [negb].
    assert (S2 : (if peek_is (String c (ds' ++ rest)) "0" then drop 1 (String c (ds' ++ rest))
                  else skip_digits (String c (ds' ++ rest))) = rest).
    { unfold peek_is. cbn [peek]. destruct (c =? "0")%char eqn:C0.
      - destruct (Z0 eq_refl) as [-> _]. reflexivity.
      - cbn [skip_digits]. rewrite D. apply skip_digits_all; assumption. }
    rewrite S2, P1. cbn [bind]. rewrite P2, P3. cbn [orb bind].
    change (String "-" (String c ds') ++ rest) with ((String "-" (String c ds')) ++ rest).
    rewrite substring_prefix.
    cbn [from_chars_int64]. rewrite D.
    specialize (V "" 0). rewrite append_empty_r in V. rewrite V. cbn [digits_value].
    replace (signed true (0 * 10 ^ Z.of_nat (S (String.length ds')) + - z)) with z
      by (unfold signed; lia).
    destruct (in_int64 z); [rewrite value_braced_diverges |]; reflexivity.
  - apply Z.ltb_ge in Neg.
    destruct (decimal_of_nonneg_spec z Neg) as (c & ds' & E & D & A & V & Z0).
    rewrite E. unfold parse_number. cbv zeta.
    assert (M : peek_is (String c ds' ++ rest) "-" = false)
      by (unfold peek_is; cbn [append peek]; apply digit_not_sign, D).
    rewrite M. unfold no_digit at 1. cbn [append peek]. rewrite D. cbn [negb].
    assert (S2 : (if peek_is (String c (ds' ++ rest)) "0" then drop 1 (String c (ds' ++ rest))
                  else skip_digits (String c (ds' ++ rest))) = rest).
    { unfold peek_is. cbn [peek]. destruct (c =? "0")%char eqn:C0.
      - destruct (Z0 eq_refl) as [-> _]. reflexivity.
      - cbn [skip_digits]. rewrite D. apply skip_digits_all; assumption. }
    rewrite S2, P1. cbn [bind]. rewrite P2, P3. cbn [orb bind].
    change (String c (ds' ++ rest)) with ((String c ds') ++ rest).
    rewrite substring_prefix.
    rewrite from_chars_int64_digit by exact D.
    specialize (V "" 0). rewrite append_empty_r in V. rewrite V. cbn [digits_value].
    replace (0 * 10 ^ Z.of_nat (S (String.length ds')) + z) with z by lia.
    destruct (in_int64 z); [rewrite value_braced_diverges |]; reflexivity.
Qed.
End number_range.

Lemma string_of_int64_starts (z : Z) :
  exists c r, string_of_int64 z = String c r /\ (c = "-"%char \/ isdigit c = true).
Proof.
  unfold string_of_int64. destruct (z <? 0) eqn:N; [eauto |].
  apply Z.ltb_ge in N.
  destruct (decimal_of_nonneg_spec z N) as (c & ds' & E & D & _). eauto.
Qed.

(** X23: an integer literal that is no [int64_t] is refused and not read as
    a double: on the decimal text of an integer below -2^63 or above
    2^63 - 1, [parse] throws "Failed to parse integer" with offset 0. *)
Theorem parse_integer_out_of_range (z : Z) :
  in_int64 z = false ->
  parse (string_of_int64 z) = Throw (parse_exception "Failed to parse integer" 0).
Proof.
  intros R. apply (parse_of_throw _ 1).
  destruct (string_of_int64_starts z) as (c & r & E & C).
  assert (Sp : isspace c = false).
  { destruct C as [-> | D]; [reflexivity | apply digit_not_space, D]. }
  pose proof (parse_number_decimal (string_of_int64 z) 0 z "" eq_refl) as H.
  rewrite append_empty_r, R in H. unfold position_ in H. rewrite Nat.sub_diag in H.
  rewrite E in *. cbn [skip_whitespace]. rewrite Sp.
  rewrite parse_value_number_start by exact C. exact H.
Qed.

Lemma parse_integer_out_of_range_witness :
  parse "9223372036854775808" = Throw (parse_exception "Failed to parse integer" 0).
Proof. apply (parse_integer_out_of_range (2 ^ 63)). reflexivity. Defined.



Section number_parts.
Variable input : string.


End number_parts.




(** * The parser: texts with a value in them

    A text that is not refused at its first token brings the parser to a
    [return], and so to the constructor that does not return. *)

Lemma digit_no_delimiter (d : ascii) :
  isdigit d = true ->
  (d =? ".")%char = false /\ (d =? "e")%char = false /\ (d =? "E")%char = false /\
  (d =? "]")%char = false /\ (d =? ",")%char = false /\ (d =? "}")%char = false.
Proof.
  destruct d as [[] [] [] [] [] [] [] []]; intros H; try discriminate H;
    repeat split; reflexivity.
Qed.

Lemma serialize_string_starts (k x : string) :
  exists r, serialize_string k ++ x = String dquote r.
Proof. unfold serialize_string. cbn [char_string append]. eexists. reflexivity. Qed.

Section parser_diverges.
Variable input : string.

Lemma parse_value_space (f : nat) (ch : ascii) (s : string) :
  isspace ch = true -> parse_value input f (String ch s) = parse_value input f s.
Proof.
  intros H. rewrite <- parse_value_skip. cbn [skip_whitespace]. rewrite H.
  apply parse_value_skip.
Qed.

(** ** Strings *)

Lemma parse_string_loop_closed (f : nat) (p rest acc : string) :
  string_body p -> parse_string_loop input f (p ++ String dquote rest) acc = OutOfFuel.
Proof.
  intros P. destruct (parse_string_loop_body input f p P (String dquote rest) acc) as [acc' ->].
  cbn [parse_string_loop]. rewrite Ascii.eqb_refl, value_braced_diverges. reflexivity.
Qed.

Lemma parse_string_serialized (f : nat) (key rest : string) :
  parse_string input f (serialize_string key ++ rest) = OutOfFuel.
Proof.
  unfold serialize_string, parse_string, expect. cbn [char_string append consume bind].
  rewrite Ascii.eqb_refl. cbn [negb bind].
  rewrite append_assoc, parse_string_loop_prefix.
  cbn [char_string append parse_string_loop].
  rewrite Ascii.eqb_refl, value_braced_diverges. reflexivity.
Qed.

Lemma parse_value_string_closed (f : nat) (p rest : string) :
  string_body p -> parse_value input f (String dquote (p ++ String dquote rest)) = OutOfFuel.
Proof.
  intros P. destruct f as [| f]; [reflexivity |].
  rewrite parse_value_string_start. apply parse_string_loop_closed, P.
Qed.

(** ** Objects: the first key *)

Lemma parse_object_loop_key (f : nat) (key rest : string) (acc : object_type) :
  parse_object_loop input f (serialize_string key ++ rest) acc = OutOfFuel.
Proof.
  destruct f as [| f]; [reflexivity |]. rewrite parse_object_loop_first.
  destruct (serialize_string_starts key rest) as [r E].
  assert (Sk : skip_whitespace (serialize_string key ++ rest) = serialize_string key ++ rest)
    by (rewrite E; reflexivity).
  rewrite Sk. assert (Q : peek_is (serialize_string key ++ rest) dquote = true)
    by (rewrite E; reflexivity).
  rewrite Q. cbn [negb]. rewrite parse_string_serialized. reflexivity.
Qed.

Lemma parse_value_object_key (f : nat) (ws key rest : string) :
  all_space ws = true ->
  parse_value input f (String "{" (ws ++ serialize_string key ++ rest)) = OutOfFuel.
Proof.
  intros W. destruct f as [| f]; [reflexivity |]. rewrite parse_value_object_start.
  rewrite skip_whitespace_spaces by exact W.
  destruct (serialize_string_starts key rest) as [r E].
  assert (Sk : skip_whitespace (serialize_string key ++ rest) = serialize_string key ++ rest)
    by (rewrite E; reflexivity).
  rewrite Sk. assert (Q : peek_is (serialize_string key ++ rest) "}" = false)
    by (rewrite E; reflexivity).
  rewrite Q. apply parse_object_loop_key.
Qed.

(** ** Numbers: the decimal text of an [int64_t] *)

Lemma parse_value_int64 (f : nat) (z : Z) (rest : string) :
  in_int64 z = true -> delimited rest = true ->
  parse_value input f (string_of_int64 z ++ rest) = OutOfFuel.
Proof.
  intros R D. destruct f as [| f]; [reflexivity |].
  pose proof (parse_number_decimal input f z rest D) as H. rewrite R in H.
  destruct (string_of_int64_starts z) as (c & r & E & C).
  rewrite E in *. cbn [append] in *. rewrite parse_value_number_start by exact C. exact H.
Qed.
End parser_diverges.

Lemma parser_parse_diverges (text : string) (fuel : nat) :
  parse_value text fuel text = OutOfFuel -> parser_parse text fuel = OutOfFuel.
Proof.
  intros H. apply parse_value_diverges_parse. rewrite parse_value_skip. exact H.
Qed.

(** ** Numbers: a leading zero *)

Section leading_zero.
Variable input : string.
Variables (sign rest : string) (d : ascii).
Hypothesis sign_cases : sign = "" \/ sign = "-".
Hypothesis d_digit : isdigit d = true.

Local Abbreviation tail := (zero_digit_text sign rest d).

(** The number token is the [0] alone, and [from_chars] reads it: the
    parser goes on to [return value{result}]. *)
Lemma parse_number_zero_digit (f : nat) (neg : bool) :
  parse_number input f ((if neg then "-" else "") ++ "0" ++ String d rest) = OutOfFuel.
Proof.
  destruct (digit_no_delimiter d d_digit) as (N1 & N2 & N3 & _).
  unfold parse_number, peek_is, no_digit.
  destruct neg; cbn -[Nat.sub substring String.length value_braced]; rewrite N1;
    cbn -[Nat.sub substring String.length value_braced]; rewrite N2, N3;
    cbn -[Nat.sub substring String.length value_braced].
  - change (String "-" (String "0" (String d rest))) with ("-0" ++ String d rest).
    rewrite (substring_prefix "-0" (String d rest)).
    cbn -[value_braced]. rewrite value_braced_diverges. reflexivity.
  - change (String "0" (String d rest)) with ("0" ++ String d rest).
    rewrite (substring_prefix "0" (String d rest)).
    cbn -[value_braced]. rewrite value_braced_diverges. reflexivity.
Qed.

Lemma zero_then_digit (f : nat) : parse_value input f tail = OutOfFuel.
Proof.
  destruct f as [| f]; [reflexivity |].
  unfold zero_digit_text. destruct sign_cases as [-> | ->].
  - rewrite <- (parse_number_zero_digit f false). reflexivity.
  - rewrite <- (parse_number_zero_digit f true). reflexivity.
Qed.

Lemma opening_first_char (p : string) :
  opening p ->
  exists c r, skip_whitespace (p ++ tail) = String c r /\
              (c =? "]")%char = false /\ (c =? "}")%char = false.
Proof.
  induction 1 as [| ch p S _ IH | p _ _ | ws1 key ws2 p _ _ _ _].
  - unfold zero_digit_text. destruct sign_cases as [-> | ->]; cbn; eauto.
  - cbn. rewrite S. exact IH.
  - cbn. eauto.
  - cbn. eauto.
Qed.

Lemma opening_diverges (p : string) :
  opening p -> forall f, parse_value input f (p ++ tail) = OutOfFuel.
Proof.
  induction 1 as [| ch p S _ IH | p O IH | ws1 key ws2 p W1 W2 O IH]; intros f.
  - apply zero_then_digit.
  - cbn [append]. rewrite parse_value_space by exact S. apply IH.
  - destruct f as [| f]; [reflexivity |]. cbn [append].
    rewrite parse_value_array_start.
    destruct (opening_first_char p O) as (c & r & E & C1 & _).
    assert (B : peek_is (skip_whitespace (p ++ tail)) "]" = false)
      by (unfold peek_is; rewrite E; cbn [peek]; exact C1).
    rewrite B. destruct f as [| f]; [reflexivity |].
    rewrite parse_array_loop_first, parse_value_skip, IH. reflexivity.
  - cbn [append]. rewrite !append_assoc. apply parse_value_object_key, W1.
Qed.
End leading_zero.

(** C4 fails on the code: a number that starts with [0] and goes on with a
    digit is not refused.  The parser reads the [0] as the integer and goes
    on to [return value{result}], from which it does not come back: with
    any fuel no [parse_exception] has been thrown, at the top level, in
    arrays and in objects alike. *)
Theorem leading_zero_not_rejected (p sign rest : string) (d : ascii) (fuel : nat) :
  opening p ->
  sign = "" \/ sign = "-" ->
  isdigit d = true ->
  parser_parse (p ++ sign ++ "0" ++ String d rest) fuel = OutOfFuel.
Proof.
  intros O Sg D. apply parser_parse_diverges.
  apply (opening_diverges _ sign rest d Sg D p O).
Qed.

Lemma leading_zero_not_rejected_witness :
  parse "012" = OutOfFuel /\ parse "-012" = OutOfFuel /\ parse "[ 012]" = OutOfFuel /\
  parse (json "{'a': [-012, 1]}") = OutOfFuel.
Proof.
  split; [| split; [| split]].
  - apply (leading_zero_not_rejected "" "" "2" "1"); [constructor | auto | reflexivity].
  - apply (leading_zero_not_rejected "" "-" "2" "1"); [constructor | auto | reflexivity].
  - apply (leading_zero_not_rejected "[ " "" "2]" "1"); [| auto | reflexivity].
    apply opening_array, opening_space; [reflexivity | apply opening_here].
  - apply (leading_zero_not_rejected (json "{'a': [") "-" "2, 1]}" "1");
      [| auto | reflexivity].
    apply (opening_object "" "a" "" " ["); try reflexivity.
    apply opening_space; [reflexivity | apply opening_array, opening_here].
Defined.

(** ** Objects *)

(** C1 fails on the code: no object text with a member is parsed, so the
    value of a key that comes twice is never looked at.  The key of the
    first member is read by [parse_string], whose [return
    value{std::move(result)}] does not come back; this holds for every key,
    whatever the texts of the two values. *)
Theorem duplicate_key_never_parsed :
  (forall (key t1 t2 : string) (fuel : nat),
     parser_parse ("{" ++ member_of_text (key, t1) ++ "," ++ member_of_text (key, t2) ++ "}")
       fuel = OutOfFuel) /\
  (forall fuel, parser_parse (json "{'a':1,'a':2}") fuel = OutOfFuel).
Proof.
  assert (G : forall (key t1 t2 : string) (fuel : nat),
             parser_parse
               ("{" ++ member_of_text (key, t1) ++ "," ++ member_of_text (key, t2) ++ "}")
               fuel = OutOfFuel).
  { intros key t1 t2 fuel. apply parser_parse_diverges.
    unfold member_of_text. cbn [fst snd append]. rewrite !append_assoc.
    apply (parse_value_object_key _ fuel "" key). reflexivity. }
  split; [exact G |]. intros fuel. exact (G "a" "1" "2" fuel).
Qed.

(** C8 fails on the code at its example: no object text with a member is
    parsed, in whatever order its keys are written, so no object comes out
    of [parse] whose keys could be visited. *)
Theorem object_text_never_parsed (members : list (string * string)) (fuel : nat) :
  members <> [] ->
  parser_parse ("{" ++ String.concat "," (map member_of_text members) ++ "}") fuel
  = OutOfFuel.
Proof.
  intros N. destruct members as [| [key t] ms]; [contradiction |].
  apply parser_parse_diverges. cbn [map].
  assert (E : exists rest, String.concat "," (member_of_text (key, t) :: map member_of_text ms)
                           ++ "}" = serialize_string key ++ rest).
  { unfold member_of_text at 1. cbn [fst snd].
    destruct (map member_of_text ms) as [| m ms']; cbn [String.concat];
      rewrite !append_assoc; eauto. }
  destruct E as [rest E]. cbn [append]. rewrite E.
  apply (parse_value_object_key _ fuel "" key). reflexivity.
Qed.

Lemma object_text_never_parsed_witness :
  parse (json "{'b':1,'a':2}") = OutOfFuel.
Proof.
  apply (object_text_never_parsed [("b", "1"); ("a", "2")]). discriminate.
Defined.

(** ** Numbers and the accessors *)

(** C6 fails on the code at its examples: the accessors are never called on
    a parsed number.  On the decimal text of an [int64_t], as on ["123"],
    [parse] goes on to [return value{result}] and does not come back, so
    neither [as_integer] nor [as_number] returns and [as_string] throws no
    [type_exception]. *)
Theorem parsed_number_never_accessed (z : Z) (fuel : nat) :
  in_int64 z = true ->
  parser_parse (string_of_int64 z) fuel = OutOfFuel /\
  (v <- parser_parse (string_of_int64 z) fuel ;; as_integer v) = OutOfFuel /\
  (v <- parser_parse (string_of_int64 z) fuel ;; as_number v) = OutOfFuel /\
  (v <- parser_parse (string_of_int64 z) fuel ;; as_string v) = OutOfFuel.
Proof.
  intros R.
  assert (P : parser_parse (string_of_int64 z) fuel = OutOfFuel).
  { apply parser_parse_diverges.
    rewrite <- (append_empty_r (string_of_int64 z)) at 2.
    apply parse_value_int64; [exact R | reflexivity]. }
  rewrite P. cbn [bind]. auto.
Qed.

Lemma parsed_number_never_accessed_witness :
  (v <- parse "123" ;; as_integer v) = OutOfFuel /\
  (v <- parse "123" ;; as_number v) = OutOfFuel /\
  (v <- parse "123" ;; as_string v) = OutOfFuel.
Proof.
  destruct (parsed_number_never_accessed 123 (S (2 * String.length "123")) eq_refl)
    as (_ & H1 & H2 & H3).
  split; [exact H1 | split; [exact H2 | exact H3]].
Defined.

(** ** Strings: the [\u] escape *)

Lemma lor_shiftl (x d k : Z) :
  0 <= x -> 0 <= k -> 0 <= d < 2 ^ k -> Z.lor (Z.shiftl x k) d = 2 ^ k * x + d.
Proof.
  intros Hx Hk Hd.
  assert (L : Z.land (Z.shiftl x k) d = 0).
  { apply Z.bits_inj'. intros n Hn. rewrite Z.land_spec, Z.bits_0.
    destruct (Z.ltb_spec n k).
    - rewrite Z.shiftl_spec_low by lia. reflexivity.
    - destruct (Z.eq_dec d 0) as [-> | ]; [rewrite Z.bits_0; apply andb_false_r |].
      rewrite (Z.bits_above_log2 d n); [apply andb_false_r | lia |].
      assert (Z.log2 d < k) by (apply Z.log2_lt_pow2; [lia | apply Hd]). lia. }
  rewrite <- Z.lxor_lor by exact L. rewrite <- Z.add_nocarry_lxor by exact L.
  rewrite Z.shiftl_mul_pow2 by lia. apply f_equal2; [apply Z.mul_comm | reflexivity].
Qed.

(** The bytes of [utf8_encode], in arithmetic: one byte up to 0x7F, the
    two bytes [110xxxxx 10xxxxxx] up to 0x7FF, the three bytes
    [1110xxxx 10xxxxxx 10xxxxxx] above. *)
Lemma utf8_encode_bytes (codepoint : Z) :
  0 <= codepoint < 65536 ->
  utf8_encode codepoint =
    if codepoint <=? 127 then char_string (char_of codepoint)
    else if codepoint <=? 2047 then
      String (char_of (192 + codepoint / 64))
        (char_string (char_of (128 + codepoint mod 64)))
    else
      String (char_of (224 + codepoint / 4096))
        (String (char_of (128 + (codepoint / 64) mod 64))
           (char_string (char_of (128 + codepoint mod 64)))).
Proof.
  intros R. unfold utf8_encode.
  destruct (codepoint <=? 127) eqn:A; [reflexivity |].
  assert (M : Z.land codepoint 63 = codepoint mod 64).
  { change 63 with (Z.ones 6). rewrite Z.land_ones by lia. reflexivity. }
  assert (M2 : Z.land (Z.shiftr codepoint 6) 63 = (codepoint / 64) mod 64).
  { change 63 with (Z.ones 6). rewrite Z.land_ones, Z.shiftr_div_pow2 by lia. reflexivity. }
  assert (B : 0 <= codepoint mod 64 < 64) by (apply Z.mod_pos_bound; lia).
  assert (B2 : 0 <= (codepoint / 64) mod 64 < 64) by (apply Z.mod_pos_bound; lia).
  rewrite M, M2, !Z.shiftr_div_pow2 by lia.
  change (2 ^ 6) with 64. change (2 ^ 12) with 4096.
  assert (L128 : forall y, 0 <= y < 64 -> Z.lor 128 y = 128 + y).
  { intros y Y. change 128 with (Z.shiftl 2 6) at 1.
    rewrite lor_shiftl by (change (2 ^ 6) with 64; lia). reflexivity. }
  rewrite !L128 by assumption.
  destruct (codepoint <=? 2047) eqn:C.
  - apply Z.leb_le in C.
    assert (D : 0 <= codepoint / 64 < 32).
    { split; [apply Z.div_pos; lia | apply Z.div_lt_upper_bound; lia]. }
    change 192 with (Z.shiftl 3 6) at 1.
    rewrite lor_shiftl by (change (2 ^ 6) with 64; lia). reflexivity.
  - assert (D : 0 <= codepoint / 4096 < 16).
    { split; [apply Z.div_pos; lia | apply Z.div_lt_upper_bound; lia]. }
    change 224 with (Z.shiftl 7 5) at 1.
    rewrite lor_shiftl by (change (2 ^ 5) with 32; lia). reflexivity.
Qed.

(** C9 fails on the code at its example: the string of a [\u] escape is
    never returned.  The loop of [parse_string] does decode the escape: four
    hexadecimal digits, in either case, make one code unit, whose UTF-8
    encoding of one, two or three bytes is appended, each escape on its own
    (the halves of a surrogate pair are not put together); but the closing
    quote leads to [return value{std::move(result)}], from which the parser
    does not come back.  A character that is no hexadecimal digit, or fewer
    than four characters, is a [parse_exception]. *)
Theorem unicode_escape_decoded_not_returned (input rest result : string) (fuel : nat)
  (h1 h2 h3 h4 : ascii) (d1 d2 d3 d4 : Z) :
  hex_value h1 = Some d1 -> hex_value h2 = Some d2 ->
  hex_value h3 = Some d3 -> hex_value h4 = Some d4 ->
  let codepoint := 4096 * d1 + 256 * d2 + 16 * d3 + d4 in
  let escape :=
    String backslash (String "u" (String h1 (String h2 (String h3 (String h4 ""))))) in
  parse_string_loop input fuel (escape ++ rest) result
  = parse_string_loop input fuel rest (result ++ utf8_encode codepoint) /\
  0 <= codepoint < 65536 /\
  utf8_encode codepoint =
    (if codepoint <=? 127 then char_string (char_of codepoint)
     else if codepoint <=? 2047 then
       String (char_of (192 + codepoint / 64))
         (char_string (char_of (128 + codepoint mod 64)))
     else
       String (char_of (224 + codepoint / 4096))
         (String (char_of (128 + (codepoint / 64) mod 64))
            (char_string (char_of (128 + codepoint mod 64))))) /\
  map hex_value (list_ascii_of_string "0123456789abcdefABCDEF")
  = map Some [0; 1; 2; 3; 4; 5; 6; 7; 8; 9; 10; 11; 12; 13; 14; 15; 10; 11; 12; 13; 14; 15] /\
  utf8_encode 55357 ++ utf8_encode 56832
  = String (char_of 237) (String (char_of 160) (String (char_of 189)
      (String (char_of 237) (String (char_of 184) (String (char_of 128) ""))))) /\
  parser_parse (String dquote (escape ++ String dquote "")) fuel = OutOfFuel /\
  parser_parse (json "'" ++ String backslash "u0041" ++ json "'") fuel = OutOfFuel /\
  parse (json "'" ++ String backslash "u12G4" ++ json "'")
  = Throw (parse_exception "Invalid hex digit in unicode escape" 5) /\
  parse (json "'" ++ String backslash "u12" ++ json "'")
  = Throw (parse_exception "Invalid unicode escape" 3).
Proof.
  intros H1 H2 H3 H4 codepoint escape.
  pose proof (hex_value_range _ _ H1). pose proof (hex_value_range _ _ H2).
  pose proof (hex_value_range _ _ H3). pose proof (hex_value_range _ _ H4).
  assert (R : 0 <= codepoint < 65536) by (unfold codepoint; lia).
  assert (B : forall hs d, hex_value hs = Some d -> is_hex_digit hs = true).
  { intros hs d E. unfold is_hex_digit. rewrite E. reflexivity. }
  assert (U : forall a b c d : ascii,
             is_hex_digit a = true -> is_hex_digit b = true ->
             is_hex_digit c = true -> is_hex_digit d = true ->
             parser_parse
               (String dquote
                  (String backslash (String "u" (String a (String b (String c (String d ""))))) ++
                   String dquote "")) fuel = OutOfFuel).
  { intros a b c d Ha Hb Hc Hd. apply parser_parse_diverges.
    apply parse_value_string_closed. apply body_unicode; try assumption. apply body_end. }
  split; [| split; [exact R | split; [apply utf8_encode_bytes, R |]]].
  - unfold escape. cbn [append parse_string_loop].
    change (backslash =? dquote)%char with false.
    change (backslash =? backslash)%char with true.
    change ("u" =? dquote)%char with false.
    change ("u" =? backslash)%char with false.
    change ("u" =? "/")%char with false.
    change ("u" =? "b")%char with false.
    change ("u" =? "f")%char with false.
    change ("u" =? "n")%char with false.
    change ("u" =? "r")%char with false.
    change ("u" =? "t")%char with false.
    change ("u" =? "u")%char with true.
    cbv iota.
    rewrite (hex_loop_four _ _ _ _ _ _ _ _ H1 H2 H3 H4). reflexivity.
  - split; [reflexivity |]. split; [reflexivity |].
    split; [apply U; eapply B; eassumption |].
    split; [exact (U "0"%char "0"%char "4"%char "1"%char eq_refl eq_refl eq_refl eq_refl) |].
    split; reflexivity.
Qed.

Lemma unicode_escape_decoded_not_returned_witness :
  parse_string_loop "" 0 (String backslash (String "u" (String "0" (String "0" (String "e" "9x"))))) "a"
  = parse_string_loop "" 0 "x" ("a" ++ utf8_encode 233) /\
  utf8_encode 233 = String (char_of 195) (String (char_of 169) "") /\
  parse (String dquote
           (String backslash (String "u" (String "0" (String "0" (String "e"
              (String "9" (String dquote ""))))))))
  = OutOfFuel.
Proof.
  pose proof (unicode_escape_decoded_not_returned "" "x" "a" 0 "0" "0" "e" "9" 0 0 14 9
                eq_refl eq_refl eq_refl eq_refl) as W1.
  pose proof (unicode_escape_decoded_not_returned "" "" "" 17 "0" "0" "e" "9" 0 0 14 9
                eq_refl eq_refl eq_refl eq_refl) as W2.
  cbv zeta in W1, W2.
  destruct W1 as (S1 & _ & S2 & _).
  destruct W2 as (_ & _ & _ & _ & _ & S3 & _).
  split; [exact S1 | split; [exact S2 | exact S3]].
Defined.

(** * Writing a value and reading the text back *)

(** ** Doubles that hold an integer *)

Lemma signed_mul (s : bool) (a b : Z) : signed s a * b = signed s (a * b).
Proof. destruct s; simpl; lia. Qed.

Lemma double_compare_integral (s1 s2 : bool) (m1 m2 : N) (e1 e2 : Z) :
  0 <= e1 -> 0 <= e2 ->
  double_compare (finite s1 m1 e1) (finite s2 m2 e2)
  = Some (Z.compare (signed s1 (Z.of_N m1 * 2 ^ e1)) (signed s2 (Z.of_N m2 * 2 ^ e2))).
Proof.
  intros H1 H2. unfold double_compare. f_equal.
  set (e := Z.min e1 e2).
  assert (P : 0 < 2 ^ e) by (apply Z.pow_pos_nonneg; lia).
  rewrite (Zmult_compare_compat_r _ _ (2 ^ e)) by lia.
  rewrite !signed_mul, <- !Z.mul_assoc, <- !Z.pow_add_r by lia.
  replace (e1 - e + e) with e1 by lia. replace (e2 - e + e) with e2 by lia.
  reflexivity.
Qed.

Lemma round_nearest_even_bounds (q r d : Z) :
  q <= round_nearest_even q r d <= q + 1.
Proof.
  unfold round_nearest_even. destruct (2 * r ?= d); [destruct (Z.even q) | |]; lia.
Qed.

(** The double of an integer has an exponent that is not negative and a
    mantissa of at most 54 bits. *)
Lemma int64_to_double_shape (i : Z) :
  exists m k, int64_to_double i = finite (i <? 0) m k /\ 0 <= k /\ Z.of_N m <= 2 ^ 53.
Proof.
  unfold int64_to_double. set (a := Z.abs i).
  set (k := Z.max 0 (Z.log2 a + 1 - 53)).
  exists (Z.to_N (round_nearest_even (a / 2 ^ k) (a mod 2 ^ k) (2 ^ k))), k.
  split; [reflexivity |]. split; [lia |].
  assert (A : 0 <= a) by (unfold a; lia).
  clearbody a.
  assert (K : 0 <= k) by lia.
  assert (P : 0 < 2 ^ k) by (apply Z.pow_pos_nonneg; lia).
  pose proof (round_nearest_even_bounds (a / 2 ^ k) (a mod 2 ^ k) (2 ^ k)) as B.
  assert (Q : 0 <= a / 2 ^ k) by (apply Z.div_pos; lia).
  rewrite Z2N.id by lia.
  destruct (Z.eq_dec k 0) as [K0 | K0].
  - rewrite K0 in *. change (2 ^ 0) with 1 in *.
    rewrite Z.div_1_r, Z.mod_1_r in *.
    unfold round_nearest_even. change (2 * 0 ?= 1) with Lt. cbv iota.
    destruct (Z.eq_dec a 0) as [E | N]; [rewrite E; lia |].
    assert (a < 2 ^ (Z.log2 a + 1)) by (apply Z.log2_spec; lia).
    assert (Z.log2 a + 1 <= 53) by lia.
    assert (L53 : 2 ^ (Z.log2 a + 1) <= 2 ^ 53) by (apply Z.pow_le_mono_r; lia).
    apply Z.lt_le_incl. eapply Z.lt_le_trans; eassumption.
  - assert (N : a <> 0) by (intros E; apply K0; unfold k; rewrite E; reflexivity).
    assert (a < 2 ^ (Z.log2 a + 1)) by (apply Z.log2_spec; lia).
    assert (a / 2 ^ k < 2 ^ 53).
    { apply Z.div_lt_upper_bound; [lia |].
      rewrite <- Z.pow_add_r by lia. replace (k + 53) with (Z.log2 a + 1) by lia. lia. }
    lia.
Qed.

(** Such a double is the double of its own integer value. *)
Lemma int64_to_double_exact (s : bool) (m : N) (k : Z) :
  0 <= k -> Z.of_N m <= 2 ^ 53 ->
  let V := signed s (Z.of_N m * 2 ^ k) in
  exists m' k', int64_to_double V = finite (V <? 0) m' k' /\ 0 <= k' /\
                signed (V <? 0) (Z.of_N m' * 2 ^ k') = V.
Proof.
  intros K M V. unfold int64_to_double. set (a := Z.abs V).
  set (k' := Z.max 0 (Z.log2 a + 1 - 53)).
  assert (P : 0 < 2 ^ k) by (apply Z.pow_pos_nonneg; lia).
  assert (Ea : a = Z.of_N m * 2 ^ k).
  { unfold a, V. destruct s; unfold signed; nia. }
  assert (K' : 0 <= k') by lia.
  assert (P' : 0 < 2 ^ k') by (apply Z.pow_pos_nonneg; lia).
  assert (D : a mod 2 ^ k' = 0).
  { destruct (Z.eq_dec (Z.of_N m) 0) as [Z0 | NZ].
    - rewrite Ea, Z0. apply Z.mod_0_l. lia.
    - assert (L : Z.log2 a = k + Z.log2 (Z.of_N m))
        by (rewrite Ea; apply Z.log2_mul_pow2; lia).
      destruct (Z.eq_dec (Z.of_N m) (2 ^ 53)) as [E53 | N53].
      + assert (k' = k + 1).
        { unfold k'. rewrite L, E53, Z.log2_pow2 by lia. lia. }
        rewrite Ea, E53, <- Z.pow_add_r by lia.
        replace (53 + k) with (52 + k') by lia.
        rewrite Z.pow_add_r by lia. apply Z.mod_mul. lia.
      + assert (Z.log2 (Z.of_N m) < 53) by (apply Z.log2_lt_pow2; lia).
        assert (k' <= k) by lia.
        rewrite Ea. replace k with ((k - k') + k') by lia.
        rewrite Z.pow_add_r, Z.mul_assoc by lia. apply Z.mod_mul. lia. }
  exists (Z.to_N (round_nearest_even (a / 2 ^ k') (a mod 2 ^ k') (2 ^ k'))), k'.
  split; [reflexivity |]. split; [exact K' |].
  rewrite D. unfold round_nearest_even.
  assert (C : (2 * 0 ?= 2 ^ k') = Lt) by (apply Z.compare_lt_iff; lia).
  rewrite C. rewrite Z2N.id by (apply Z.div_pos; lia).
  assert (X : a / 2 ^ k' * 2 ^ k' = a).
  { pose proof (Z.div_mod a (2 ^ k') ltac:(lia)). lia. }
  rewrite X. unfold a, signed. destruct (Z.ltb_spec V 0); lia.
Qed.

(** An integer is written by [serialize_number] as the integer its double
    truncates to: the 17-digit branch is not taken. *)
Lemma serialize_number_integer (i : Z) :
  serialize_number (int64_to_double i) =
    (z <- double_to_int64 (int64_to_double i) ;; Ok (string_of_int64 z)).
Proof.
  unfold serialize_number.
  destruct (int64_to_double_shape i) as (m & k & E & K & M). rewrite E.
  destruct (double_to_int64 (finite (i <? 0) m k)) as [z | | |] eqn:T; try reflexivity.
  cbn [bind].
  assert (Z1 : z = signed (i <? 0) (Z.of_N m * 2 ^ k) /\ in_int64 z = true).
  { unfold double_to_int64, double_trunc in T.
    assert (L : (0 <=? k) = true) by (apply Z.leb_le; lia). rewrite L in T.
    destruct (in_int64 _) eqn:R; [| discriminate T]. injection T as <-. auto. }
  destruct Z1 as [Zv R].
  destruct (int64_to_double_exact (i <? 0) m k K M) as (m' & k' & E' & K' & V').
  cbv zeta in E', V'. rewrite <- Zv in E', V'.
  assert (C1 : double_eq (finite (i <? 0) m k) (int64_to_double z) = true).
  { unfold double_eq. rewrite E', double_compare_integral by assumption.
    rewrite V', <- Zv, Z.compare_refl. reflexivity. }
  unfold in_int64 in R. apply andb_prop in R. destruct R as [R1 R2].
  apply Z.leb_le in R1, R2.
  assert (C2 : double_ge (finite (i <? 0) m k) (int64_to_double int64_min) = true).
  { unfold double_ge.
    change (int64_to_double int64_min) with (finite true 4503599627370496 11).
    rewrite double_compare_integral by lia. rewrite <- Zv.
    change (signed true (Z.of_N 4503599627370496 * 2 ^ 11)) with int64_min.
    destruct (z ?= int64_min) eqn:C; try reflexivity.
    change (z < int64_min) in C. lia. }
  assert (C3 : double_le (finite (i <? 0) m k) (int64_to_double int64_max) = true).
  { unfold double_le.
    change (int64_to_double int64_max) with (finite false 9007199254740992 10).
    rewrite double_compare_integral by lia. rewrite <- Zv.
    change (signed false (Z.of_N 9007199254740992 * 2 ^ 10)) with (int64_max + 1).
    destruct (z ?= int64_max + 1) eqn:C; try reflexivity.
    change (z > int64_max + 1) in C. lia. }
  rewrite C1, C2, C3. reflexivity.
Qed.

(** ** The text of every value *)

Lemma value_ind_nested (P : value -> Prop) :
  P null ->
  (forall b, P (boolean b)) ->
  (forall i, P (integer i)) ->
  (forall n, P (number n)) ->
  (forall s, P (str s)) ->
  (forall arr, Forall P arr -> P (array arr)) ->
  (forall obj, Forall (fun kv => P (snd kv)) obj -> P (object obj)) ->
  forall v, P v.
Proof.
  intros Hnull Hbool Hint Hnum Hstr Harr Hobj.
  fix IH 1. intros [| b | i | n | s | arr | obj].
  - exact Hnull.
  - apply Hbool.
  - apply Hint.
  - apply Hnum.
  - apply Hstr.
  - apply Harr.
    exact ((fix all (l : list value) : Forall P l :=
              match l with
              | [] => Forall_nil P
              | x :: l' => Forall_cons x (IH x) (all l')
              end) arr).
  - apply Hobj.
    exact ((fix all (l : list (string * value)) : Forall (fun kv => P (snd kv)) l :=
              match l with
              | [] => Forall_nil _
              | kv :: l' => Forall_cons kv (IH (snd kv)) (all l')
              end) obj).
Qed.

Lemma double_to_int64_cases (x : double) :
  (exists z, double_to_int64 x = Ok z /\ in_int64 z = true) \/ double_to_int64 x = Undefined.
Proof.
  unfold double_to_int64. destruct (double_trunc x) as [z |]; [| right; reflexivity].
  destruct (in_int64 z) eqn:R; [left; eauto | right; reflexivity].
Qed.

Lemma all_space_spaces (k : nat) : all_space (spaces k) = true.
Proof. induction k; simpl; auto. Qed.

Lemma all_space_app (a b : string) :
  all_space a = true -> all_space b = true -> all_space (a ++ b) = true.
Proof.
  induction a as [| ch a IH]; simpl; [auto |].
  intros H B. apply andb_prop in H. destruct H as [H1 H2]. rewrite H1. auto.
Qed.

Section layout.
Variables (pretty : bool) (indent_size : nat).

Lemma all_space_newline : all_space (write_newline pretty) = true.
Proof. destruct pretty; reflexivity. Qed.

Lemma all_space_indent (k : nat) : all_space (write_indent pretty indent_size k) = true.
Proof. unfold write_indent. destruct pretty; [apply all_space_spaces | reflexivity]. Qed.

(** What follows the last element of a container is a delimiter. *)
Lemma delimited_closing (k : nat) (c : ascii) (rest : string) :
  c = "]"%char \/ c = "}"%char ->
  delimited (write_newline pretty ++ write_indent pretty indent_size k ++ String c rest)
  = true.
Proof.
  unfold write_newline, write_indent.
  destruct pretty; [reflexivity |]. intros [-> | ->]; reflexivity.
Qed.
End layout.

Lemma starts_value_inv (t : string) :
  starts_value t = true ->
  exists c t', t = String c t' /\ isspace c = false /\
               (c =? "]")%char = false /\ (c =? "}")%char = false.
Proof.
  destruct t as [| c t']; [discriminate |]. unfold starts_value.
  intros H. apply andb_prop in H. destruct H as [H H3].
  apply andb_prop in H. destruct H as [H1 H2].
  apply negb_true_iff in H1, H2, H3. eauto 7.
Qed.

Lemma skip_whitespace_value (ws t r : string) :
  all_space ws = true -> starts_value t = true ->
  skip_whitespace (ws ++ t ++ r) = t ++ r /\
  peek_is (t ++ r) "]" = false /\ peek_is (t ++ r) "}" = false.
Proof.
  intros W S. rewrite skip_whitespace_spaces by exact W.
  destruct (starts_value_inv t S) as (c & t' & -> & H1 & H2 & H3).
  cbn [append skip_whitespace]. rewrite H1. unfold peek_is. cbn [peek].
  rewrite H2, H3. auto.
Qed.

Lemma int64_text_unparsed (z : Z) :
  in_int64 z = true ->
  starts_value (string_of_int64 z) = true /\ unparsed (string_of_int64 z).
Proof.
  intros R. split.
  - destruct (string_of_int64_starts z) as (c & r & E & C). rewrite E. unfold starts_value.
    destruct C as [-> | D]; [reflexivity |].
    destruct c as [[] [] [] [] [] [] [] []]; try discriminate D; reflexivity.
  - intros input fuel rest D. apply parse_value_int64; assumption.
Qed.

Section containers_text.
Variables (pretty : bool) (indent_size : nat).

Local Abbreviation nl := (write_newline pretty).
Local Abbreviation ind := (write_indent pretty indent_size).
Local Abbreviation sp := (write_space pretty).
Local Abbreviation ser := (serialize_value pretty indent_size).

Lemma skip_whitespace_element (k : nat) (t r : string) :
  starts_value t = true ->
  skip_whitespace (nl ++ ind k ++ t ++ r) = t ++ r /\
  peek_is (t ++ r) "]" = false /\ peek_is (t ++ r) "}" = false.
Proof.
  intros S. rewrite <- append_assoc. apply skip_whitespace_value; [| exact S].
  apply all_space_app; [apply all_space_newline | apply all_space_indent].
Qed.

(** The elements behind the first: they are written when each of them is,
    and a comma starts them. *)
Lemma serialize_elements_written (d : nat) (xs : list value) :
  Forall written_unparsed xs ->
  if forallb renderable xs then
    exists body,
      serialize_elements pretty indent_size ser d xs false = Ok body /\
      forall k rest, delimited (body ++ nl ++ ind k ++ String "]" rest) = true
  else serialize_elements pretty indent_size ser d xs false = Undefined.
Proof.
  induction 1 as [| x xs Px Pxs IH].
  - cbn [forallb serialize_elements]. exists "". split; [reflexivity |].
    intros k rest. cbn [append]. apply delimited_closing. auto.
  - cbn [forallb serialize_elements]. specialize (Px pretty indent_size d).
    destruct (renderable x); cbn [andb].
    + destruct Px as (t & -> & _). cbn [bind].
      destruct (forallb renderable xs).
      * destruct IH as (body & -> & _). cbn [bind]. eexists. split; [reflexivity |].
        intros k rest. reflexivity.
      * rewrite IH. reflexivity.
    + rewrite Px. reflexivity.
Qed.

Lemma serialize_members_written (d : nat) (obj : list (string * value)) :
  Forall (fun kv => written_unparsed (snd kv)) obj ->
  if forallb (fun kv => renderable (snd kv)) obj then
    exists body, serialize_members pretty indent_size ser d obj false = Ok body
  else serialize_members pretty indent_size ser d obj false = Undefined.
Proof.
  induction 1 as [| [key x] obj Px Pobj IH].
  - cbn [forallb serialize_members]. exists "". reflexivity.
  - cbn [forallb serialize_members snd]. specialize (Px pretty indent_size d).
    cbn [snd] in Px. destruct (renderable x); cbn [andb].
    + destruct Px as (t & -> & _). cbn [bind].
      destruct (forallb (fun kv => renderable (snd kv)) obj).
      * destruct IH as (body & ->). cbn [bind]. eexists. reflexivity.
      * rewrite IH. reflexivity.
    + rewrite Px. reflexivity.
Qed.
End containers_text.

(** Every value is written, unless a conversion in it is undefined, as a
    text from which [parse_value] does not come back, in pretty and in
    compact mode. *)
Lemma all_written (v : value) : written_unparsed v.
Proof.
  induction v as [| b | i | n | s | arr IH | obj IH] using value_ind_nested;
    intros pretty indent_size d.
  - cbn. exists "null". repeat split. intros input [| f] rest _; [reflexivity |].
    change (parse_value input (S f) ("null" ++ rest)) with (parse_null input f ("null" ++ rest)).
    rewrite parse_null_value. destruct rest; reflexivity.
  - cbn. exists (if b then "true" else "false").
    split; [reflexivity |]. split; [destruct b; reflexivity |].
    intros input [| f] rest _; [reflexivity |].
    destruct b.
    + change (parse_value input (S f) ("true" ++ rest))
        with (parse_boolean input f ("true" ++ rest)).
      rewrite parse_boolean_value. destruct rest; reflexivity.
    + change (parse_value input (S f) ("false" ++ rest))
        with (parse_boolean input f ("false" ++ rest)).
      rewrite parse_boolean_value. destruct rest; reflexivity.
  - cbn [renderable serialize_value type index value_type_of_index as_number
           is_number is_integer get_integer bind].
    rewrite serialize_number_integer.
    destruct (double_to_int64_cases (int64_to_double i)) as [(z & -> & R) | ->];
      [| reflexivity].
    cbn [defined bind]. exists (string_of_int64 z).
    split; [reflexivity |]. apply int64_text_unparsed, R.
  - cbn [renderable serialize_value type index value_type_of_index as_integer
           is_number is_integer get_number bind].
    destruct (double_to_int64_cases n) as [(z & -> & R) | ->]; [| reflexivity].
    cbn [defined bind]. exists (string_of_int64 z).
    split; [reflexivity |]. apply int64_text_unparsed, R.
  - cbn. exists (serialize_string s). repeat split.
    intros input [| f] rest _; [reflexivity |].
    change (parse_value input (S f) (serialize_string s ++ rest))
      with (parse_string input f (serialize_string s ++ rest)).
    apply parse_string_serialized.
  - cbn [renderable serialize_value type index value_type_of_index].
    destruct arr as [| x xs].
    { cbn. exists "[]". repeat split. intros input [| f] rest _; [reflexivity |].
      cbn [append]. rewrite parse_value_array_start. reflexivity. }
    inversion IH as [| ? ? Px Pxs]; subst. unfold serialize_array.
    cbn [forallb serialize_elements].
    pose proof (serialize_elements_written pretty indent_size (S d) xs Pxs) as B.
    specialize (Px pretty indent_size (S d)).
    destruct (renderable x); cbn [andb].
    + destruct Px as (t & -> & St & Ut). cbn [bind].
      destruct (forallb renderable xs); [| rewrite B; reflexivity].
      destruct B as (body & -> & Db). cbn [bind].
      eexists. split; [reflexivity |]. split; [reflexivity |].
      intros input [| f] rest _; [reflexivity |].
      replace (("[" ++ write_newline pretty
                    ++ ("" ++ write_indent pretty indent_size (S d) ++ t ++ body)
                    ++ write_newline pretty ++ write_indent pretty indent_size d ++ "]")
                 ++ rest)
        with (String "[" (write_newline pretty ++ write_indent pretty indent_size (S d)
                ++ t ++ body ++ write_newline pretty
                ++ write_indent pretty indent_size d ++ String "]" rest))
        by (cbn [append]; rewrite ?append_assoc; cbn [append]; rewrite ?append_assoc;
            cbn [append]; rewrite ?append_assoc; reflexivity).
      rewrite parse_value_array_start.
      destruct (skip_whitespace_element pretty indent_size (S d) t
                  (body ++ write_newline pretty ++ write_indent pretty indent_size d
                        ++ String "]" rest) St) as (W & P1 & _).
      rewrite W, P1. destruct f as [| f]; [reflexivity |].
      rewrite parse_array_loop_first, Ut by apply Db. reflexivity.
    + rewrite Px. reflexivity.
  - cbn [renderable serialize_value type index value_type_of_index].
    destruct obj as [| [key x] obj].
    { cbn. exists "{}". repeat split. intros input [| f] rest _; [reflexivity |].
      cbn [append]. rewrite parse_value_object_start. reflexivity. }
    inversion IH as [| ? ? Px Pobj]; subst. cbn [snd] in Px. unfold serialize_object.
    cbn [forallb serialize_members snd].
    pose proof (serialize_members_written pretty indent_size (S d) obj Pobj) as B.
    specialize (Px pretty indent_size (S d)).
    destruct (renderable x); cbn [andb].
    + destruct Px as (t & -> & _). cbn [bind].
      destruct (forallb (fun kv => renderable (snd kv)) obj); [| rewrite B; reflexivity].
      destruct B as (body & ->). cbn [bind].
      eexists. split; [reflexivity |]. split; [reflexivity |].
      intros input fuel rest _.
      replace (("{" ++ write_newline pretty
                    ++ ("" ++ write_indent pretty indent_size (S d)
                           ++ serialize_string key ++ ":" ++ write_space pretty
                           ++ t ++ body)
                    ++ write_newline pretty ++ write_indent pretty indent_size d ++ "}")
                 ++ rest)
        with (String "{" ((write_newline pretty ++ write_indent pretty indent_size (S d))
                ++ serialize_string key ++ ":" ++ write_space pretty ++ t ++ body
                ++ write_newline pretty
                ++ write_indent pretty indent_size d ++ String "}" rest))
        by (cbn [append]; rewrite ?append_assoc; cbn [append]; rewrite ?append_assoc;
            cbn [append]; rewrite ?append_assoc; cbn [append]; rewrite ?append_assoc;
            reflexivity).
      apply parse_value_object_key.
      apply all_space_app; [apply all_space_newline | apply all_space_indent].
    + rewrite Px. reflexivity.
Qed.

(** The text [to_string] writes, handed to the parser, in either mode. *)
Lemma parse_to_string (v : value) (pretty : bool) (fuel : nat) :
  (t <- to_string v pretty ;; parser_parse t fuel)
  = if renderable v then OutOfFuel else Undefined.
Proof.
  pose proof (all_written v pretty 2%nat 0%nat) as H. unfold to_string, serialize.
  destruct (renderable v); [| rewrite H; reflexivity].
  destruct H as (t & -> & St & Ut). cbn [bind].
  apply parser_parse_diverges. specialize (Ut t fuel "" eq_refl).
  rewrite append_empty_r in Ut. exact Ut.
Qed.

(** C3 fails on the code at every value: no tree comes back from either
    text.  The text [to_string] writes for [v], pretty or compact, is
    written unless a conversion of a number in [v] is undefined, and [parse]
    does not return from it: the first value in the text, which is the text
    itself for a scalar and the first element or key for a container, is
    read up to its [return value{...}].  The two modes do behave alike, as
    far as that goes. *)
Theorem pretty_and_compact_never_reparsed (v : value) :
  (forall pretty fuel,
     (t <- to_string v pretty ;; parser_parse t fuel)
     = if renderable v then OutOfFuel else Undefined) /\
  (forall pretty tree, (t <- to_string v pretty ;; parse t) <> Ok tree) /\
  (forall pretty, defined (to_string v pretty) = renderable v) /\
  to_string (array [null]) true
  = Ok (String "[" (String char_n ("  null" ++ String char_n "]"))) /\
  to_string (array [null]) false = Ok "[null]" /\
  parse (String "[" (String char_n ("  null" ++ String char_n "]"))) = OutOfFuel /\
  parse "[null]" = OutOfFuel.
Proof.
  split; [intros; apply parse_to_string |].
  split.
  { intros pretty tree. destruct (to_string v pretty) as [t | | |] eqn:E; cbn [bind];
      try discriminate.
    pose proof (parse_to_string v pretty (S (2 * String.length t))) as H.
    rewrite E in H. cbn [bind] in H. unfold parse. rewrite H.
    destruct (renderable v); discriminate. }
  split.
  { intros pretty. pose proof (all_written v pretty 2%nat 0%nat) as H.
    unfold to_string, serialize.
    destruct (renderable v); [destruct H as (t & -> & _) | rewrite H]; reflexivity. }
  repeat split; reflexivity.
Qed.

(** C2 fails on the code at every value of the claim: [parse] does not
    return from the compact text of any value, so nothing equal to [v] comes
    back.  Besides, by the switch on [type()], a double is written as the
    integer it truncates to, and would read back as another value if the
    parser returned one. *)
Theorem round_trip_never_returns :
  (forall v fuel,
     (t <- to_string v false ;; parser_parse t fuel)
     = if renderable v then OutOfFuel else Undefined) /\
  (forall v w, (t <- to_string v false ;; parse t) <> Ok w) /\
  to_string null false = Ok "null" /\
  (forall fuel, parser_parse "null" fuel = OutOfFuel) /\
  to_string (number (double_of_literal "1.5")) false = Ok "1" /\
  (forall fuel, parser_parse "1" fuel = OutOfFuel) /\
  to_string (integer 9007199254740993) false = Ok "9007199254740992".
Proof.
  split; [intros; apply parse_to_string |].
  split.
  { intros v w. destruct (to_string v false) as [t | | |] eqn:E; cbn [bind];
      try discriminate.
    pose proof (parse_to_string v false (S (2 * String.length t))) as H.
    rewrite E in H. cbn [bind] in H. unfold parse. rewrite H.
    destruct (renderable v); discriminate. }
  split; [reflexivity |].
  split; [intros fuel; apply (parse_to_string null false fuel) |].
  split; [reflexivity |].
  split; [intros fuel; apply (parse_to_string (number (double_of_literal "1.5")) false fuel) |].
  reflexivity.
Qed.

(** * The serializer *)

(** X24: [to_string] throws on no value: it returns a text, or a conversion
    of a number in the value is undefined. *)
Theorem to_string_never_throws (v : value) (pretty : bool) :
  match to_string v pretty with
  | Ok _ => renderable v = true
  | Undefined => renderable v = false
  | Throw _ | OutOfFuel => False
  end.
Proof.
  pose proof (all_written v pretty 2%nat 0%nat) as H. unfold to_string, serialize.
  destruct (renderable v).
  - destruct H as (t & -> & _). reflexivity.
  - rewrite H. reflexivity.
Qed.


(** * The value model *)

(** ** The map of an object *)

Lemma ascii_compare_refl (a : ascii) : Ascii.compare a a = Eq.
Proof. unfold Ascii.compare. apply N.compare_refl. Qed.

Lemma ascii_compare_lt_trans (a b c : ascii) :
  Ascii.compare a b = Lt -> Ascii.compare b c = Lt -> Ascii.compare a c = Lt.
Proof. unfold Ascii.compare. rewrite !N.compare_lt_iff. lia. Qed.

Lemma string_compare_refl (s : string) : String.compare s s = Eq.
Proof.
  induction s as [| a s IH]; simpl; [reflexivity |].
  rewrite ascii_compare_refl. exact IH.
Qed.

Lemma string_compare_eq (a b : string) : String.compare a b = Eq <-> a = b.
Proof.
  split; [apply String.compare_eq_iff | intros ->; apply string_compare_refl].
Qed.

Lemma string_compare_lt_trans (a b c : string) :
  String.compare a b = Lt -> String.compare b c = Lt -> String.compare a c = Lt.
Proof.
  revert b c; induction a as [| x a IH]; intros [| y b] [| z c]; simpl; try congruence.
  destruct (Ascii.compare x y) eqn:XY; try discriminate;
    destruct (Ascii.compare y z) eqn:YZ; try discriminate; intros H1 H2.
  - apply Ascii.compare_eq_iff in XY, YZ. subst. rewrite ascii_compare_refl. eauto.
  - apply Ascii.compare_eq_iff in XY. subst. rewrite YZ. reflexivity.
  - apply Ascii.compare_eq_iff in YZ. subst. rewrite XY. reflexivity.
  - rewrite (ascii_compare_lt_trans _ _ _ XY YZ). reflexivity.
Qed.

Lemma string_compare_gt_lt (a b : string) :
  String.compare a b = Gt -> String.compare b a = Lt.
Proof. rewrite String.compare_antisym. destruct (String.compare b a); simpl; congruence. Qed.

Lemma string_eqb_compare (a b : string) :
  String.eqb a b = match String.compare a b with Eq => true | _ => false end.
Proof.
  destruct (String.eqb_spec a b) as [-> | N].
  - rewrite string_compare_refl. reflexivity.
  - destruct (String.compare a b) eqn:C; try reflexivity.
    apply String.compare_eq_iff in C. contradiction.
Qed.

Section object_map_facts.
Variable V : Type.
Implicit Types (o : object_map.t V) (v : V).

Lemma keys_emplace (key : string) v o (k : string) :
  In k (object_map.keys (object_map.emplace key v o)) ->
  k = key \/ In k (object_map.keys o).
Proof.
  induction o as [| [k0 v0] o IH]; simpl.
  - intros [<- | []]; auto.
  - destruct (String.compare key k0); simpl; intuition.
Qed.

Lemma emplace_ordered (key : string) v o :
  object_map.ordered o -> object_map.ordered (object_map.emplace key v o).
Proof.
  unfold object_map.ordered.
  induction o as [| [k0 v0] o IH]; simpl; intros H.
  - constructor; constructor.
  - inversion H as [| ? ? S F]; subst.
    destruct (String.compare key k0) eqn:C; simpl.
    + exact H.
    + constructor; [exact H |]. constructor; [exact C |].
      eapply Forall_impl; [| exact F]. intros k. apply string_compare_lt_trans, C.
    + constructor; [apply IH, S |].
      apply Forall_forall. intros k I. apply keys_emplace in I. destruct I as [-> | I].
      * apply string_compare_gt_lt, C.
      * revert k I. apply Forall_forall, F.
Qed.

Lemma find_emplace (key k : string) v o :
  object_map.ordered o ->
  object_map.find key (object_map.emplace k v o) =
    match object_map.find key o with
    | Some x => Some x
    | None => if String.eqb key k then Some v else None
    end.
Proof.
  unfold object_map.ordered.
  induction o as [| [k0 v0] o IH]; simpl; intros H.
  - rewrite string_eqb_compare. destruct (String.compare key k); reflexivity.
  - inversion H as [| ? ? S F]; subst.
    destruct (String.compare k k0) eqn:C; simpl.
    + apply string_compare_eq in C. subst k0. rewrite string_eqb_compare.
      destruct (String.compare key k) eqn:D; try reflexivity.
      destruct (object_map.find key o); reflexivity.
    + rewrite string_eqb_compare.
      destruct (String.compare key k) eqn:D.
      * apply string_compare_eq in D. subst key. rewrite C. reflexivity.
      * rewrite (string_compare_lt_trans _ _ _ D C). reflexivity.
      * destruct (String.compare key k0); try reflexivity.
        destruct (object_map.find key o); reflexivity.
    + destruct (String.compare key k0) eqn:D; try reflexivity.
      * rewrite string_eqb_compare.
        destruct (String.compare key k) eqn:E; try reflexivity.
        apply string_compare_eq in E. subst key. congruence.
      * apply IH, S.
Qed.

End object_map_facts.

(** ** [size], [empty], [push_back], [operator[]] on arrays *)

(** X15: [empty] answers whether [size] is zero, and throws on the values
    on which [size] throws. *)
Theorem empty_is_size_zero (v : value) :
  empty v = (n <- size v ;; Ok (n =? 0)%nat).
Proof. destruct v as [| b | i | n | s | [| x arr] | [| kv obj]]; reflexivity. Qed.

Lemma nth_error_snoc {A : Type} (l : list A) (a : A) (i : nat) :
  nth_error (l ++ [a]) i =
    if (i <? List.length l)%nat then nth_error l i
    else if (i =? List.length l)%nat then Some a else None.
Proof.
  revert i; induction l as [| x l IH]; intros [| i]; cbn [app nth_error List.length].
  - reflexivity.
  - destruct i; reflexivity.
  - reflexivity.
  - rewrite IH. reflexivity.
Qed.

(** X16: [push_back] on an array appends: it returns, the size grows by
    one, the array is not empty, the new element is the last one, and the
    elements before it are the ones that were there; the index behind it is
    out of range as before. *)
Theorem push_back_appends (arr : array_type) (val : value) :
  let v' := snd (push_back (array arr) val) in
  fst (push_back (array arr) val) = Ok tt /\
  size v' = Ok (S (List.length arr)) /\
  empty v' = Ok false /\
  forall i, at_index v' i =
              if (i <? List.length arr)%nat then at_index (array arr) i
              else if (i =? List.length arr)%nat then Ok val else Undefined.
Proof.
  cbn [push_back is_array negb get_array fst snd]. repeat split.
  - cbn [size is_array get_array bind]. rewrite length_app. cbn [List.length].
    f_equal. lia.
  - cbn [empty is_array get_array bind]. destruct arr; reflexivity.
  - intros i. cbn [at_index get_array bind]. rewrite nth_error_snoc.
    destruct (i <? List.length arr)%nat; [reflexivity |].
    destruct (i =? List.length arr)%nat; reflexivity.
Qed.

(** ** [contains], [at], [operator[]] on objects *)

(** X17: [at] returns exactly on the keys that [contains] reports. *)
Theorem contains_iff_at_returns (v : value) (key : string) :
  contains v key = defined (at_const v key).
Proof.
  destruct v as [| b | i | n | s | arr | obj]; try reflexivity.
  cbn [contains at_const is_object negb get_object bind]. unfold object_map.contains.
  destruct (object_map.find key obj); reflexivity.
Qed.

Lemma find_eq_key (key key' : string) (obj : object_type) :
  String.eqb key' key = true -> object_map.find key' obj = object_map.find key obj.
Proof. intros E. apply String.eqb_eq in E. subst. reflexivity. Qed.

(** X18: [operator[]] with a key returns the entry of the key and inserts a
    null entry when there is none: afterwards the key is contained, [at]
    gives the returned entry, the other keys have the entries they had, and
    the size has grown by one exactly when the key was absent. *)
Theorem subscript_inserts_null (obj : object_type) (key : string) :
  object_map.ordered obj ->
  exists x obj',
    at_key (object obj) key = (Ok x, object obj') /\
    object_map.ordered obj' /\
    Ok x = (if contains (object obj) key then at_const (object obj) key else Ok null) /\
    size (object obj')
    = Ok (if contains (object obj) key then List.length obj else S (List.length obj)) /\
    forall key', at_const (object obj') key' =
                   if String.eqb key' key then Ok x else at_const (object obj) key'.
Proof.
  intros O. cbn [at_key is_object is_array negb get_object contains at_const bind size].
  unfold object_map.subscript, object_map.contains.
  destruct (object_map.find key obj) as [x |] eqn:F.
  - exists x, obj. repeat split; [exact O |].
    intros key'. destruct (String.eqb key' key) eqn:E; [| reflexivity].
    rewrite (find_eq_key _ _ _ E), F. reflexivity.
  - exists null, (object_map.emplace key null obj). repeat split.
    + apply emplace_ordered, O.
    + f_equal. clear O. induction obj as [| [k0 v0] obj IH]; [reflexivity |].
      cbn [object_map.find object_map.emplace] in *.
      destruct (String.compare key k0); try discriminate F; cbn [List.length];
        [reflexivity | rewrite (IH F); reflexivity].
    + intros key'. rewrite find_emplace by exact O.
      destruct (String.eqb key' key) eqn:E.
      * rewrite (find_eq_key _ _ _ E), F. reflexivity.
      * destruct (object_map.find key' obj); reflexivity.
Qed.

Lemma subscript_inserts_null_witness :
  exists x obj',
    at_key (object [("a", integer 1); ("c", null)]) "b" = (Ok x, object obj') /\
    size (object obj') = Ok 3%nat.
Proof.
  destruct (subscript_inserts_null [("a", integer 1); ("c", null)] "b")
    as (x & obj' & H1 & _ & _ & H2 & _).
  - repeat constructor.
  - exists x, obj'. split; [exact H1 | exact H2].
Defined.

(** ** [operator==] *)

Lemma value_eq_array_cons (a b : value) (x y : list value) :
  value_eq (array (a :: x)) (array (b :: y)) = value_eq a b && value_eq (array x) (array y).
Proof. reflexivity. Qed.

Lemma value_eq_object_cons (k1 k2 : string) (a b : value) (x y : list (string * value)) :
  value_eq (object ((k1, a) :: x)) (object ((k2, b) :: y))
  = String.eqb k1 k2 && value_eq a b && value_eq (object x) (object y).
Proof. reflexivity. Qed.

Lemma double_eq_sym (x y : double) : double_eq x y = double_eq y x.
Proof.
  unfold double_eq.
  destruct x as [s1 m1 e1 | s1 |], y as [s2 m2 e2 | s2 |]; cbn [double_compare];
    try reflexivity.
  - rewrite (Z.min_comm e2 e1), (Z.compare_antisym (signed s1 _ * _)).
    destruct (_ ?= _); reflexivity.
  - destruct s2; reflexivity.
  - destruct s1; reflexivity.
  - destruct s1, s2; reflexivity.
Qed.

Lemma double_eq_refl (x : double) :
  double_eq x x = match x with nan => false | _ => true end.
Proof.
  unfold double_eq. destruct x as [s m e | s |]; cbn [double_compare].
  - rewrite Z.compare_refl. reflexivity.
  - destruct s; reflexivity.
  - reflexivity.
Qed.

(** X19: [==] on values is symmetric. *)
Theorem value_eq_symmetric (a b : value) : value_eq a b = value_eq b a.
Proof.
  revert b. induction a as [| x | x | x | x | arr IH | obj IH] using value_ind_nested;
    intros [| y | y | y | y | arr' | obj']; try reflexivity.
  - cbn [value_eq]. destruct x, y; reflexivity.
  - cbn [value_eq]. apply Z.eqb_sym.
  - cbn [value_eq]. apply double_eq_sym.
  - cbn [value_eq]. apply String.eqb_sym.
  - revert arr'. induction IH as [| a arr Ha _ IHarr]; intros [| b arr']; try reflexivity.
    rewrite !value_eq_array_cons, Ha, IHarr. reflexivity.
  - revert obj'. induction IH as [| [k a] obj Ha _ IHobj]; intros [| [k' b] obj'];
      try reflexivity.
    rewrite !value_eq_object_cons, (String.eqb_sym k k'), IHobj. cbn [snd] in Ha.
    rewrite Ha. reflexivity.
Qed.

(** X20: a value is equal to itself exactly when there is no NaN in it. *)
Theorem value_eq_reflexive_without_nan (v : value) : value_eq v v = nan_free v.
Proof.
  induction v as [| x | x | x | x | arr IH | obj IH] using value_ind_nested.
  - reflexivity.
  - destruct x; reflexivity.
  - cbn [value_eq nan_free]. apply Z.eqb_refl.
  - cbn [value_eq]. rewrite double_eq_refl. destruct x; reflexivity.
  - cbn [value_eq nan_free]. apply String.eqb_refl.
  - induction IH as [| a arr Ha _ IHarr]; [reflexivity |].
    rewrite value_eq_array_cons, Ha, IHarr. reflexivity.
  - induction IH as [| [k a] obj Ha _ IHobj]; [reflexivity |].
    rewrite value_eq_object_cons, String.eqb_refl, IHobj. cbn [snd] in Ha.
    rewrite Ha. reflexivity.
Qed.

(** X21: on a value with no double in it, [==] is equality of the trees. *)
Theorem value_eq_plain (a b : value) :
  plain a = true -> (value_eq a b = true <-> a = b).
Proof.
  revert b. induction a as [| x | x | x | x | arr IH | obj IH] using value_ind_nested;
    intros b P.
  - destruct b; split; intros H; try discriminate H; reflexivity.
  - destruct b as [| y | | | | |]; split; intros H; try discriminate H.
    + cbn [value_eq] in H. apply Bool.eqb_prop in H. subst. reflexivity.
    + injection H as <-. cbn [value_eq]. apply Bool.eqb_reflx.
  - destruct b as [| | y | | | |]; split; intros H; try discriminate H.
    + cbn [value_eq] in H. apply Z.eqb_eq in H. subst. reflexivity.
    + injection H as <-. cbn [value_eq]. apply Z.eqb_refl.
  - discriminate P.
  - destruct b as [| | | | y | |]; split; intros H; try discriminate H.
    + cbn [value_eq] in H. apply String.eqb_eq in H. subst. reflexivity.
    + injection H as <-. cbn [value_eq]. apply String.eqb_refl.
  - destruct b as [| | | | | arr' |]; try (split; intros H; discriminate H).
    revert arr' P. induction IH as [| a arr Ha _ IHarr]; intros [| b arr'] P;
      try (split; intros H; try discriminate H; reflexivity).
    cbn [plain forallb] in P. apply andb_prop in P. destruct P as [Pa Parr].
    rewrite value_eq_array_cons. split.
    + intros H. apply andb_prop in H. destruct H as [H1 H2].
      apply (Ha b Pa) in H1. apply (IHarr arr' Parr) in H2. congruence.
    + intros H. injection H as <- <-. apply andb_true_intro. split.
      * apply (Ha a Pa). reflexivity.
      * apply (IHarr arr Parr). reflexivity.
  - destruct b as [| | | | | | obj']; try (split; intros H; discriminate H).
    revert obj' P. induction IH as [| [k a] obj Ha _ IHobj]; intros [| [k' b] obj'] P;
      try (split; intros H; try discriminate H; reflexivity).
    cbn [plain forallb snd] in P. apply andb_prop in P. destruct P as [Pa Pobj].
    cbn [snd] in Ha. rewrite value_eq_object_cons. split.
    + intros H. apply andb_prop in H. destruct H as [H H3].
      apply andb_prop in H. destruct H as [H1 H2].
      apply String.eqb_eq in H1. apply (Ha b Pa) in H2. apply (IHobj obj' Pobj) in H3.
      congruence.
    + intros H. injection H as <- <- <-. rewrite String.eqb_refl. cbn [andb].
      apply andb_true_intro. split.
      * apply (Ha a Pa). reflexivity.
      * apply (IHobj obj Pobj). reflexivity.
Qed.

Lemma value_eq_plain_witness :
  value_eq (array [integer 1; str "a"]) (array [integer 1; str "b"]) = true <->
  array [integer 1; str "a"] = array [integer 1; str "b"].
Proof.
  apply (value_eq_plain (array [integer 1; str "a"]) (array [integer 1; str "b"])).
  reflexivity.
Defined.

(** * The texts of the serializer *)

Lemma concat_cons (sep t : string) (ts : list string) :
  String.concat sep (t :: ts) = t ++ String.concat "" (map (fun x => sep ++ x) ts).
Proof.
  revert t; induction ts as [| u ts IH]; intros t.
  - simpl. rewrite append_empty_r. reflexivity.
  - change (String.concat sep (t :: u :: ts)) with (t ++ sep ++ String.concat sep (u :: ts)).
    rewrite IH. simpl. destruct ts; simpl; rewrite ?append_assoc, ?append_empty_r; reflexivity.
Qed.

Lemma concat_empty_cons (t : string) (ts : list string) :
  String.concat "" (t :: ts) = t ++ String.concat "" ts.
Proof. destruct ts; simpl; [rewrite append_empty_r |]; reflexivity. Qed.

(** The members are written in the order of the map, with commas between. *)
(** ** The characters of a written text *)

Lemma all_chars_app (p : ascii -> bool) (a b : string) :
  all_chars p (a ++ b) = all_chars p a && all_chars p b.
Proof.
  induction a as [| ch a IH]; cbn [append all_chars]; [reflexivity |].
  rewrite IH, andb_assoc. reflexivity.
Qed.

Lemma serialize_char_text (pretty : bool) (ch : ascii) :
  all_chars (text_char pretty) (serialize_char ch) = true.
Proof. destruct ch as [[] [] [] [] [] [] [] []]; reflexivity. Qed.

Lemma serialize_chars_text (pretty : bool) (s : string) :
  all_chars (text_char pretty) (serialize_chars s) = true.
Proof.
  induction s as [| ch s IH]; [reflexivity |]. cbn [serialize_chars].
  rewrite all_chars_app, serialize_char_text, IH. reflexivity.
Qed.

Lemma serialize_string_text (pretty : bool) (s : string) :
  all_chars (text_char pretty) (serialize_string s) = true.
Proof.
  unfold serialize_string. cbn [char_string append all_chars].
  rewrite all_chars_app, serialize_chars_text. reflexivity.
Qed.

Lemma digit_text (pretty : bool) (ch : ascii) : isdigit ch = true -> text_char pretty ch = true.
Proof. destruct ch as [[] [] [] [] [] [] [] []]; intros H; try discriminate H; reflexivity. Qed.

Lemma all_digits_text (pretty : bool) (s : string) :
  all_digits s = true -> all_chars (text_char pretty) s = true.
Proof.
  induction s as [| ch s IH]; [reflexivity |]. cbn [all_digits all_chars].
  intros H. apply andb_prop in H. destruct H as [H1 H2].
  rewrite (digit_text pretty ch H1), (IH H2). reflexivity.
Qed.

Lemma decimal_of_nonneg_text (pretty : bool) (a : Z) :
  0 <= a -> all_chars (text_char pretty) (decimal_of_nonneg a) = true.
Proof.
  intros A. destruct (decimal_of_nonneg_spec a A) as (c & ds' & -> & D & Ds & _).
  cbn [all_chars]. rewrite (digit_text pretty c D), (all_digits_text pretty ds' Ds).
  reflexivity.
Qed.

Lemma string_of_int64_text (pretty : bool) (z : Z) :
  all_chars (text_char pretty) (string_of_int64 z) = true.
Proof.
  unfold string_of_int64. destruct (z <? 0) eqn:N.
  - apply Z.ltb_lt in N. cbn [all_chars]. rewrite decimal_of_nonneg_text by lia. reflexivity.
  - apply Z.ltb_ge in N. apply decimal_of_nonneg_text, N.
Qed.

Lemma spaces_text (pretty : bool) (k : nat) : all_chars (text_char pretty) (spaces k) = true.
Proof. induction k as [| k IH]; [reflexivity |]. cbn [spaces all_chars]. rewrite IH. reflexivity. Qed.

Section written_text.
Variables (pretty : bool) (indent_size : nat).

Local Abbreviation written := (all_chars (text_char pretty)).

Lemma write_newline_text : written (write_newline pretty) = true.
Proof. destruct pretty; reflexivity. Qed.

Lemma write_space_text : written (write_space pretty) = true.
Proof. destruct pretty; reflexivity. Qed.

Lemma write_indent_text (k : nat) : written (write_indent pretty indent_size k) = true.
Proof. unfold write_indent. destruct pretty; [apply spaces_text | reflexivity]. Qed.

Lemma serialize_elements_text (d : nat) (xs : list value) :
  Forall (fun x => forall d t, serialize_value pretty indent_size d x = Ok t -> written t = true)
         xs ->
  forall first body,
    serialize_elements pretty indent_size (serialize_value pretty indent_size) d xs first
    = Ok body ->
    written body = true.
Proof.
  induction 1 as [| x xs Px _ IH]; intros first body; cbn [serialize_elements].
  - intros H; injection H as <-. reflexivity.
  - destruct (serialize_value pretty indent_size d x) as [t | | |] eqn:E; try discriminate.
    cbn [bind].
    destruct (serialize_elements pretty indent_size _ d xs false) as [rest | | |] eqn:R;
      try discriminate.
    cbn [bind]. intros H; injection H as <-.
    rewrite !all_chars_app, write_indent_text, (Px _ _ E), (IH _ _ R).
    destruct first; [reflexivity |].
    cbn [append all_chars]. rewrite write_newline_text. reflexivity.
Qed.

Lemma serialize_members_text (d : nat) (obj : list (string * value)) :
  Forall (fun kv => forall d t, serialize_value pretty indent_size d (snd kv) = Ok t ->
                                written t = true) obj ->
  forall first body,
    serialize_members pretty indent_size (serialize_value pretty indent_size) d obj first
    = Ok body ->
    written body = true.
Proof.
  induction 1 as [| [k x] obj Px _ IH]; intros first body; cbn [serialize_members].
  - intros H; injection H as <-. reflexivity.
  - cbn [snd] in Px.
    destruct (serialize_value pretty indent_size d x) as [t | | |] eqn:E; try discriminate.
    cbn [bind].
    destruct (serialize_members pretty indent_size _ d obj false) as [rest | | |] eqn:R;
      try discriminate.
    cbn [bind]. intros H; injection H as <-.
    repeat (rewrite !all_chars_app; cbn [all_chars char_string]).
    rewrite write_indent_text, serialize_chars_text, write_space_text, (Px _ _ E),
      (IH _ _ R).
    destruct first; [reflexivity |].
    cbn [append all_chars]. rewrite write_newline_text. reflexivity.
Qed.

Lemma serialize_value_text (v : value) :
  forall d t, serialize_value pretty indent_size d v = Ok t -> written t = true.
Proof.
  induction v as [| b | i | n | s | arr IH | obj IH] using value_ind_nested; intros d t.
  - cbn. intros H; injection H as <-. reflexivity.
  - cbn. intros H; injection H as <-. destruct b; reflexivity.
  - cbn [serialize_value type index value_type_of_index as_number is_number is_integer
           get_integer bind].
    rewrite serialize_number_integer.
    destruct (double_to_int64 (int64_to_double i)) as [z | | |]; try discriminate.
    cbn [bind]. intros H; injection H as <-. apply string_of_int64_text.
  - cbn [serialize_value type index value_type_of_index as_integer is_number is_integer
           get_number bind].
    destruct (double_to_int64 n) as [z | | |]; try discriminate.
    cbn [bind]. intros H; injection H as <-. apply string_of_int64_text.
  - cbn. intros H; injection H as <-. apply serialize_string_text.
  - cbn [serialize_value type index value_type_of_index]. unfold serialize_array.
    destruct arr as [| x xs]; [intros H; injection H as <-; reflexivity |].
    destruct (serialize_elements pretty indent_size _ (S d) (x :: xs) true)
      as [body | | |] eqn:E; try discriminate.
    cbn [bind]. intros H; injection H as <-.
    cbn [append all_chars].
    rewrite !all_chars_app, write_newline_text, write_indent_text,
      (serialize_elements_text _ _ IH _ _ E).
    reflexivity.
  - cbn [serialize_value type index value_type_of_index]. unfold serialize_object.
    destruct obj as [| kv obj]; [intros H; injection H as <-; reflexivity |].
    destruct (serialize_members pretty indent_size _ (S d) (kv :: obj) true)
      as [body | | |] eqn:E; try discriminate.
    cbn [bind]. intros H; injection H as <-.
    cbn [append all_chars].
    rewrite !all_chars_app, write_newline_text, write_indent_text,
      (serialize_members_text _ _ IH _ _ E).
    reflexivity.
Qed.
End written_text.

(** X25: a written text holds no control character, but for the new lines
    of pretty mode: every control character of a string is written as an
    escape, so the compact text is one line. *)
Theorem to_string_no_control_character (v : value) (pretty : bool) (t : string) :
  to_string v pretty = Ok t -> all_chars (text_char pretty) t = true.
Proof. apply serialize_value_text. Qed.

Lemma to_string_no_control_character_witness :
  all_chars (text_char false)
    (String dquote (String "a" (String backslash (String "n" (String dquote ""))))) = true.
Proof.
  apply (to_string_no_control_character (str (String "a" (String char_n ""))) false).
  reflexivity.
Defined.

(** ** Compact texts *)

Section compact.
Variables indent_size indent_size' : nat.

Lemma serialize_elements_depth (d d' : nat) (xs : list value) :
  Forall (fun x => forall d d', serialize_value false indent_size d x
                                = serialize_value false indent_size' d' x) xs ->
  forall first,
    serialize_elements false indent_size (serialize_value false indent_size) d xs first
    = serialize_elements false indent_size' (serialize_value false indent_size') d' xs first.
Proof.
  induction 1 as [| x xs Px _ IH]; intros first; [reflexivity |].
  cbn [serialize_elements]. rewrite (Px d d'), (IH false). reflexivity.
Qed.

Lemma serialize_members_depth (d d' : nat) (obj : list (string * value)) :
  Forall (fun kv => forall d d', serialize_value false indent_size d (snd kv)
                                 = serialize_value false indent_size' d' (snd kv)) obj ->
  forall first,
    serialize_members false indent_size (serialize_value false indent_size) d obj first
    = serialize_members false indent_size' (serialize_value false indent_size') d' obj first.
Proof.
  induction 1 as [| [k x] obj Px _ IH]; intros first; [reflexivity |].
  cbn [serialize_members]. cbn [snd] in Px. rewrite (Px d d'), (IH false). reflexivity.
Qed.

(** In compact mode nothing is indented: the text does not depend on the
    depth or on the width of the indentation. *)
Lemma serialize_value_depth (v : value) :
  forall d d', serialize_value false indent_size d v = serialize_value false indent_size' d' v.
Proof.
  induction v as [| b | i | n | s | arr IH | obj IH] using value_ind_nested; intros d d';
    try reflexivity.
  - cbn [serialize_value type index value_type_of_index]. unfold serialize_array.
    destruct arr as [| x xs]; [reflexivity |].
    rewrite (serialize_elements_depth (S d) (S d') _ IH true). reflexivity.
  - cbn [serialize_value type index value_type_of_index]. unfold serialize_object.
    destruct obj as [| kv obj]; [reflexivity |].
    rewrite (serialize_members_depth (S d) (S d') _ IH true). reflexivity.
Qed.
End compact.

Lemma serialize_elements_compact (xs : list value) :
  serialize_elements false 2 (serialize_value false 2) 1 xs false =
    (texts <- all_ok (fun x => to_string x false) xs ;;
     Ok (String.concat "" (map (fun t => "," ++ t) texts))).
Proof.
  induction xs as [| x xs IH]; [reflexivity |].
  cbn [serialize_elements all_ok]. unfold to_string at 1, serialize.
  rewrite (serialize_value_depth 2 2 x 1 0).
  destruct (serialize_value false 2 0 x) as [t | | |]; try reflexivity.
  cbn [bind]. rewrite IH.
  destruct (all_ok (fun x => to_string x false) xs) as [ts | | |]; try reflexivity.
  cbn [bind map]. f_equal.
  rewrite concat_empty_cons. unfold write_newline, write_indent. cbn [append].
  rewrite ?append_assoc. reflexivity.
Qed.

(** X26: the compact text of an array is the compact texts of its elements
    in order, with commas between and brackets around; it is undefined when
    the text of an element is. *)
Theorem to_string_compact_array (xs : list value) :
  to_string (array xs) false =
    (texts <- all_ok (fun x => to_string x false) xs ;;
     Ok ("[" ++ String.concat "," texts ++ "]")).
Proof.
  unfold to_string at 1, serialize. cbn [serialize_value type index value_type_of_index].
  destruct xs as [| x xs]; [reflexivity |].
  unfold serialize_array. cbn [serialize_elements all_ok]. unfold to_string at 1, serialize.
  rewrite (serialize_value_depth 2 2 x 1 0).
  destruct (serialize_value false 2 0 x) as [t | | |]; try reflexivity.
  cbn [bind]. rewrite serialize_elements_compact.
  destruct (all_ok (fun x => to_string x false) xs) as [ts | | |]; try reflexivity.
  cbn [bind]. f_equal. rewrite concat_cons.
  unfold write_newline, write_indent.
  repeat (cbn [append]; rewrite ?append_assoc). reflexivity.
Qed.


(** ** Compact texts of objects *)

Lemma serialize_members_compact (obj : object_type) :
  serialize_members false 2 (serialize_value false 2) 1 obj false =
    (texts <- all_ok member_text obj ;;
     Ok (String.concat "" (map (fun x => "," ++ x) texts))).
Proof.
  induction obj as [| [key val] obj IH]; [reflexivity |].
  cbn [serialize_members all_ok]. unfold member_text at 1, to_string, serialize.
  cbn [fst snd]. rewrite (serialize_value_depth 2 2 val 1 0).
  destruct (serialize_value false 2 0 val) as [t | | |]; try reflexivity.
  cbn [bind]. rewrite IH.
  destruct (all_ok member_text obj) as [ts | | |]; try reflexivity.
  cbn [bind map]. f_equal.
  rewrite concat_empty_cons. unfold write_newline, write_indent, write_space. cbn [append].
  rewrite !append_assoc. reflexivity.
Qed.

(** X31: the compact text of an object is the texts of its members in the
    order of the map, each the key as a string literal, a colon and the
    compact text of the value, with commas between and braces around; it is
    undefined when the text of a member is. *)
Theorem to_string_compact_object (obj : object_type) :
  to_string (object obj) false =
    (texts <- all_ok member_text obj ;; Ok ("{" ++ String.concat "," texts ++ "}")).
Proof.
  unfold to_string at 1, serialize. cbn [serialize_value type index value_type_of_index].
  destruct obj as [| [key val] obj]; [reflexivity |].
  unfold serialize_object. cbn [serialize_members all_ok].
  unfold member_text at 1, to_string, serialize. cbn [fst snd].
  rewrite (serialize_value_depth 2 2 val 1 0).
  destruct (serialize_value false 2 0 val) as [t | | |]; try reflexivity.
  cbn [bind]. rewrite serialize_members_compact.
  destruct (all_ok member_text obj) as [ts | | |]; try reflexivity.
  cbn [bind]. f_equal. rewrite concat_cons.
  unfold write_newline, write_indent, write_space.
  repeat (cbn [append]; rewrite ?append_assoc). reflexivity.
Qed.

(** * The constructors and the accessors of a value *)


Lemma signed_quot (neg : bool) (a b : Z) :
  0 <= a -> 0 < b -> signed neg (a / b) = Z.quot (signed neg a) b.
Proof.
  intros A B. destruct neg; cbn [signed].
  - rewrite Z.quot_opp_l by lia. rewrite Z.quot_div_nonneg by lia. reflexivity.
  - rewrite Z.quot_div_nonneg by lia. reflexivity.
Qed.

(** X33: [as_integer] returns the integer of an integer and rounds a double
    toward zero: the double [(-1)^neg * m * 2^e] gives the integer
    [(-1)^neg * m * 2^e] when [e] is not negative, and the quotient of
    [(-1)^neg * m] by [2^(-e)], rounded toward zero, when it is; the
    conversion is undefined when that integer is no [int64_t], and for an
    infinity or a NaN.  So 1.5 gives 1 and -1.5 gives -1.  On any other tag
    [as_integer] throws a [type_exception]. *)
Theorem as_integer_rounds_toward_zero :
  (forall i, as_integer (integer i) = Ok i) /\
  (forall neg m e,
     as_integer (number (finite neg m e)) =
       let z := if 0 <=? e then signed neg (Z.of_N m * 2 ^ e)
                else Z.quot (signed neg (Z.of_N m)) (2 ^ (- e)) in
       if in_int64 z then Ok z else Undefined) /\
  (forall neg, as_integer (number (infinity neg)) = Undefined) /\
  as_integer (number nan) = Undefined /\
  as_integer (number (double_of_literal "1.5")) = Ok 1 /\
  as_integer (number (double_of_literal "-1.5")) = Ok (-1) /\
  as_integer (number (double_of_literal "-0.5")) = Ok 0 /\
  as_integer (number (double_of_literal "1e19")) = Undefined /\
  (forall v, is_integer v = false -> is_number v = false ->
             as_integer v = Throw (type_exception "Value is not a number")).
Proof.
  split; [reflexivity |].
  split.
  { intros neg m e. cbn [as_integer is_integer is_number get_number bind].
    unfold double_to_int64, double_trunc. cbv zeta.
    destruct (Z.leb_spec 0 e) as [E | E]; [reflexivity |].
    rewrite signed_quot; [reflexivity | lia | apply Z.pow_pos_nonneg; lia]. }
  split; [reflexivity |].
  split; [reflexivity |].
  split; [reflexivity |].
  split; [reflexivity |].
  split; [reflexivity |].
  split; [reflexivity |].
  intros [| b | i | n | s | a | o] I N; try discriminate; reflexivity.
Qed.

Lemma as_integer_rounds_toward_zero_witness :
  as_integer (str "1") = Throw (type_exception "Value is not a number").
Proof.
  apply (proj2 (proj2 (proj2 (proj2 (proj2 (proj2 (proj2 (proj2
           as_integer_rounds_toward_zero))))))) (str "1")); reflexivity.
Defined.



(** X35: [emplace], by which [parse_object] puts a member into the map,
    leaves an entry that is there alone: afterwards the key has the entry it
    had, or the new value when it had none; the other keys have the entries
    they had; and the keys are still in increasing order.  So of two members
    with one key, the second does not replace the first. *)
Theorem emplace_keeps_existing_entry (result : object_type) (key : string) (val : value) :
  object_map.ordered result ->
  object_map.find key (object_map.emplace key val result)
  = match object_map.find key result with Some old => Some old | None => Some val end /\
  (forall other, other <> key ->
     object_map.find other (object_map.emplace key val result) = object_map.find other result) /\
  object_map.ordered (object_map.emplace key val result) /\
  (forall val', object_map.emplace key val' (object_map.emplace key val result)
                = object_map.emplace key val result).
Proof.
  intros O. split; [| split; [| split]].
  - rewrite find_emplace by exact O. rewrite String.eqb_refl. reflexivity.
  - intros other N. rewrite find_emplace by exact O.
    apply String.eqb_neq in N. rewrite N.
    destruct (object_map.find other result); reflexivity.
  - apply emplace_ordered, O.
  - intros val'. clear O. induction result as [| [k v] o IH]; cbn [object_map.emplace].
    + rewrite string_compare_refl. reflexivity.
    + destruct (String.compare key k) eqn:C; cbn [object_map.emplace].
      * rewrite C. reflexivity.
      * rewrite string_compare_refl. reflexivity.
      * rewrite C, IH. reflexivity.
Qed.

Lemma emplace_keeps_existing_entry_witness :
  object_map.find "a" (object_map.emplace "a" (integer 2) [("a", integer 1)])
  = Some (integer 1) /\
  object_map.emplace "a" (integer 2) (object_map.emplace "a" (integer 1) [])
  = [("a", integer 1)].
Proof.
  assert (O : object_map.ordered (@nil (string * value))) by constructor.
  assert (O1 : object_map.ordered [("a", integer 1)]) by (repeat constructor).
  split.
  - exact (proj1 (emplace_keeps_existing_entry [("a", integer 1)] "a" (integer 2) O1)).
  - exact (proj2 (proj2 (proj2 (emplace_keeps_existing_entry [] "a" (integer 1) O)))
             (integer 2)).
Defined.
